(** * leakybucket: fixed-window quota buckets, in-memory and redis-backed

    A shallow embedding of the two backends of [bububa/leakybucket]:
    - package [memory]: [bucket.Add], [bucket.AddWithTime], [Storage.Create],
      [Storage.Clean];
    - package [redis]: [byteArrayToUint], [bucket.updateOldReset],
      [bucket.Add], [Storage.Create], [min].

    Conventions.
    - Go's [uint], [int] and [int64] are taken at 64 bits and carried in [Z];
      every conversion and every operation that can wrap says so.
    - [time.Time] is an integer count of nanoseconds since the Unix epoch and
      [time.Duration] an [int64] count of nanoseconds.
    - [time.Now()] and [conn.Do(...)] are effects: programs are trees whose
      nodes ask the clock or the redis connection and continue with the
      answer.  An interpreter feeds the answers and keeps the list of redis
      commands that were sent. *)

From Stdlib Require Import ZArith Lia List.
From Stdlib.Strings Require Import Byte.
From Stdlib Require Import DecimalString.
From stdpp Require Import base option list gmap strings.

Local Open Scope Z_scope.

(* ================================================================== *)
(** * Go values *)
(* ================================================================== *)

Module Go.

(** [uint(x)]: conversion to the unsigned 64-bit range wraps. *)
Definition uint (z : Z) : Z := z mod 2 ^ 64.

(** Conversion to the signed 64-bit range wraps (two's complement). *)
Definition int64 (z : Z) : Z := (z + 2 ^ 63) mod 2 ^ 64 - 2 ^ 63.

Definition is_uint (z : Z) : Prop := 0 <= z < 2 ^ 64.
Definition is_int64 (z : Z) : Prop := - 2 ^ 63 <= z < 2 ^ 63.

(** [a - b] on [uint]. *)
Definition uint_sub (a b : Z) : Z := uint (a - b).

(** [a * b] on [int64]. *)
Definition int64_mul (a b : Z) : Z := int64 (a * b).

(** [a / b] on [int64]: truncated towards zero. *)
Definition int64_div (a b : Z) : Z := int64 (Z.quot a b).

(** ** [time.Time] and [time.Duration] *)

Definition Time : Type := Z.
Definition Duration : Type := Z.

Definition Nanosecond : Duration := 1.
Definition Millisecond : Duration := 1000000.
Definition Second : Duration := 1000000000.
Definition Hour : Duration := 3600 * Second.

(** [t.Add(d)] *)
Definition Time_Add (t : Time) (d : Duration) : Time := t + d.
(** [t.After(u)] *)
Definition Time_After (t u : Time) : bool := u <? t.
(** [t.Before(u)] *)
Definition Time_Before (t u : Time) : bool := t <? u.
(** [t.Unix()]: whole seconds since the epoch, rounded down. *)
Definition Time_Unix (t : Time) : Z := t / Second.
(** [d.Nanoseconds()] *)
Definition Nanoseconds (d : Duration) : Z := d.

(** ** [error] values that occur in the two packages *)

Inductive error : Type :=
| ErrorFull                 (* leakybucket.ErrorFull *)
| NumError                  (* *strconv.NumError, from strconv.Atoi *)
| ConnError (msg : string). (* whatever error conn.Do reports *)

(** ** [strconv.Atoi] on the bytes of the string

    An optional sign, then one or more decimal digits, and the value has to
    fit [int]; anything else is a [*NumError]. *)

Definition digit_val (c : byte) : option Z :=
  let n := Z.of_N (Byte.to_N c) in
  if (48 <=? n) && (n <=? 57) then Some (n - 48) else None.

Fixpoint digits_val (acc : Z) (s : list byte) : option Z :=
  match s with
  | [] => Some acc
  | c :: s' =>
      match digit_val c with
      | Some d => digits_val (10 * acc + d) s'
      | None => None
      end
  end.

Definition in_int_range (z : Z) : bool := (- 2 ^ 63 <=? z) && (z <? 2 ^ 63).

Definition Atoi (s : list byte) : Z * option error :=
  let '(neg, body) :=
    match s with
    | "-"%byte :: s' => (true, s')
    | "+"%byte :: s' => (false, s')
    | _ => (false, s)
    end in
  match body with
  | [] => (0, Some NumError)
  | _ =>
      match digits_val 0 body with
      | None => (0, Some NumError)
      | Some v =>
          let n := if neg then - v else v in
          if in_int_range n then (n, None)
          else ((if neg then - 2 ^ 63 else 2 ^ 63 - 1), Some NumError)
      end
  end.

End Go.

Export Go.

(* ================================================================== *)
(** * Programs that ask the outside world *)
(* ================================================================== *)

(** A program returns, panics, or raises an event of the family [E] and goes
    on with the answer. *)
Inductive Prog (E : Type -> Type) (R : Type) : Type :=
| Ret (r : R)
| Panic (msg : string)
| Vis (X : Type) (e : E X) (k : X -> Prog E R).

Arguments Ret {E R} r.
Arguments Panic {E R} msg.
Arguments Vis {E R X} e k.

Fixpoint bind {E : Type -> Type} {A B : Type}
    (p : Prog E A) (f : A -> Prog E B) : Prog E B :=
  match p with
  | Ret a => f a
  | Panic msg => Panic msg
  | Vis e k => Vis e (fun x => bind (k x) f)
  end.

Declare Scope prog_scope.
Delimit Scope prog_scope with prog.
Notation "'let*' x ':=' p 'in' q" := (bind p (fun x => q))
  (at level 10, x name, p at level 100, q at level 200) : prog_scope.
Notation "'let*' ' pat ':=' p 'in' q" := (bind p (fun x => match x with pat => q end))
  (at level 10, pat pattern, p at level 100, q at level 200) : prog_scope.
Local Open Scope prog_scope.

(** What a finished run hands back. *)
Inductive Outcome (R : Type) : Type :=
| Done (r : R)
| Panicked (msg : string).

Arguments Done {R} r.
Arguments Panicked {R} msg.

(** A handler answers every event from a world [W] and moves the world on. *)
Definition Handler (E : Type -> Type) (W : Type) : Type :=
  forall X : Type, E X -> W -> X * W.

Fixpoint interp {E : Type -> Type} {W R : Type}
    (h : Handler E W) (p : Prog E R) (w : W) : Outcome R * W :=
  match p with
  | Ret r => (Done r, w)
  | Panic msg => (Panicked msg, w)
  | Vis e k => let '(x, w') := h _ e w in interp h (k x) w'
  end.

(** ** The clock *)

Inductive clockE : Type -> Type :=
| TimeNow : clockE Time.

(** The clock of a run is the sequence of its future readings. *)
Definition Clock : Type := nat -> Time.

Definition tick : Handler clockE Clock :=
  fun X e =>
    match e in clockE X return Clock -> X * Clock with
    | TimeNow => fun clk => (clk 0%nat, fun n => clk (S n))
    end.

(** A clock that stands still for the duration of a call. *)
Definition frozen (now : Time) : Clock := fun _ => now.

(** The clock after [k] readings. *)
Definition later (k : nat) (clk : Clock) : Clock := fun n => clk (k + n)%nat.

(** Run a program whose only effect is reading the clock. *)
Definition exec {R : Type} (p : Prog clockE R) (clk : Clock) : Outcome R * Clock :=
  interp tick p clk.

(** Raise one event and return its answer. *)
Definition trigger {E : Type -> Type} {X : Type} (e : E X) : Prog E X := Vis e Ret.

(* ================================================================== *)
(** * package leakybucket (root package) *)
(* ================================================================== *)

Module leakybucket.

(** Modelled from the spec: the root package's [BucketState] is not part of
    the sources at hand; it is the snapshot {capacity, remaining,
    reset-time} that every [Add] returns, built positionally as
    [BucketState{b.capacity, b.remaining, b.reset}]. *)
Record BucketState : Type := mkBucketState {
  Capacity : Z;
  Remaining : Z;
  Reset : Time
}.

End leakybucket.

(* ================================================================== *)
(** * package memory *)
(* ================================================================== *)

Module memory.

Import leakybucket.

Record bucket : Type := mkBucket {
  capacity : Z;       (* uint *)
  remaining : Z;      (* uint *)
  reset : Time;
  rate : Duration;
  updated : Time
}.

Definition set_updated (b : bucket) (t : Time) : bucket :=
  mkBucket (capacity b) (remaining b) (reset b) (rate b) t.
Definition set_reset (b : bucket) (t : Time) : bucket :=
  mkBucket (capacity b) (remaining b) t (rate b) (updated b).
Definition set_remaining (b : bucket) (n : Z) : bucket :=
  mkBucket (capacity b) n (reset b) (rate b) (updated b).

Definition Capacity (b : bucket) : Z := capacity b.
Definition Remaining (b : bucket) : Z := remaining b.
Definition Reset (b : bucket) : Time := reset b.

(** [leakybucket.BucketState{b.capacity, b.remaining, b.reset}] *)
Definition snapshot (b : bucket) : BucketState :=
  mkBucketState (capacity b) (remaining b) (reset b).

(** What a method with receiver [b *bucket] leaves behind: the bucket as
    mutated, and the pair it returns. *)
Abbreviation AddResult := (bucket * (BucketState * option error))%type.

(** [time.Now()] *)
Definition time_Now : Prog clockE Time := trigger TimeNow.

(** [func (b *bucket) Add(amount uint) (leakybucket.BucketState, error)] *)
Definition Add (b : bucket) (amount : Z) : Prog clockE AddResult :=
  let* now := time_Now in
  let b := set_updated b now in
  let* now := time_Now in
  let* b :=
    if Time_After now (reset b) then
      let* now := time_Now in
      let b := set_reset b (Time_Add now (rate b)) in
      Ret (set_remaining b (capacity b))
    else Ret b in
  if amount >? remaining b then
    Ret (b, (snapshot b, Some ErrorFull))
  else
    let b := set_remaining b (uint_sub (remaining b) amount) in
    Ret (b, (snapshot b, None)).

(** [func (b *bucket) AddWithTime(amount uint, t time.Time)
     (leakybucket.BucketState, error)] *)
Definition AddWithTime (b : bucket) (amount : Z) (t : Time) : Prog clockE AddResult :=
  let* now := time_Now in
  let b := set_updated b now in
  let b :=
    if Time_After t (reset b) then
      let b := set_reset b (Time_Add t (rate b)) in
      set_remaining b (capacity b)
    else b in
  let b :=
    if Time_Before t (Time_Add (reset b) (int64_mul (-1) (rate b))) then
      set_reset b (Time_Add t (rate b))
    else b in
  if amount >? remaining b then
    Ret (b, (snapshot b, Some ErrorFull))
  else
    let b := set_remaining b (uint_sub (remaining b) amount) in
    Ret (b, (snapshot b, None)).

(** ** The steps of [Add] and [AddWithTime], named

    The two methods are the same three steps: stamp [updated], move the
    window, try to consume the amount.  The steps are named here so that a
    statement can speak of the state between them; [Add_steps] and
    [AddWithTime_steps] below show that the methods are their composition. *)

(** The roll-over of [Add] (lines 33-36). *)
Definition rollover (b : bucket) : Prog clockE bucket :=
  let* now := time_Now in
  if Time_After now (reset b) then
    let* now := time_Now in
    Ret (mkBucket (capacity b) (capacity b) (Time_Add now (rate b)) (rate b) (updated b))
  else Ret b.

(** The roll-over of [AddWithTime] against the supplied time (lines 46-49). *)
Definition rollover_at (b : bucket) (t : Time) : bucket :=
  if Time_After t (reset b) then
    mkBucket (capacity b) (capacity b) (Time_Add t (rate b)) (rate b) (updated b)
  else b.

(** The re-alignment of [AddWithTime] (lines 50-52). *)
Definition realign (b : bucket) (t : Time) : bucket :=
  if Time_Before t (Time_Add (reset b) (int64_mul (-1) (rate b))) then
    set_reset b (Time_Add t (rate b))
  else b.

(** The consume attempt (lines 37-41 and 53-57). *)
Definition consume (b : bucket) (amount : Z) : AddResult :=
  if amount >? remaining b then
    (b, (snapshot b, Some ErrorFull))
  else
    let b := set_remaining b (uint_sub (remaining b) amount) in
    (b, (snapshot b, None)).

(** The bucket as the consume attempt of [Add] finds it, on a clock whose
    next readings are [clk 0] (line 32), [clk 1] (line 33) and [clk 2]
    (line 34). *)
Definition entering (b : bucket) (clk : Clock) : bucket :=
  if Time_After (clk 1%nat) (reset b) then
    mkBucket (capacity b) (capacity b) (Time_Add (clk 2%nat) (rate b)) (rate b)
      (clk 0%nat)
  else
    mkBucket (capacity b) (remaining b) (reset b) (rate b) (clk 0%nat).

(** ** [Storage]

    [buckets map[string]*bucket]: the map holds pointers, so a bucket handed
    out by [Create] and the one the map knows are one object.  Pointers are
    positions in a heap of buckets that only grows. *)

Abbreviation ptr := nat.
Abbreviation Heap := (list bucket).

Record Storage : Type := mkStorage {
  buckets : gmap string ptr
}.

(** [func New() *Storage] *)
Definition New : Storage := mkStorage ∅.

(** A method call through a pointer: a missing cell is a nil dereference. *)
Definition through {A : Type} (p : ptr) (h : Heap)
    (method : bucket -> Prog clockE (bucket * A)) : Prog clockE (Heap * A) :=
  match h !! p with
  | None => Panic "invalid memory address or nil pointer dereference"
  | Some b => let* '(b', a) := method b in Ret (<[p := b']> h, a)
  end.

(** [func (s *Storage) Create(name string, capacity uint, rate time.Duration)
     (leakybucket.Bucket, error)] *)
Definition Create (s : Storage) (name : string) (capacity : Z) (rate : Duration)
    (h : Heap) : Prog clockE ((Storage * Heap) * (ptr * option error)) :=
  match buckets s !! name with
  | Some b => Ret ((s, h), (b, None))
  | None =>
      let* now := time_Now in
      let* now' := time_Now in
      let b := length h in
      let h := h ++ [mkBucket capacity capacity (Time_Add now rate) rate now'] in
      let s := mkStorage (<[name := b]> (buckets s)) in
      Ret ((s, h), (b, None))
  end.

(** The loop of [Clean] over the entries of the map in the order the range
    statement yields them.  Deleting the entry at hand does not disturb the
    entries still to come. *)
Fixpoint Clean_range (entries : list (string * ptr)) (s : Storage) (h : Heap)
    : Prog clockE Storage :=
  match entries with
  | [] => Ret s
  | (name, b) :: entries =>
      match h !! b with
      | None => Panic "invalid memory address or nil pointer dereference"
      | Some b =>
          let* now := time_Now in
          let s :=
            if Time_Before (updated b) (Time_Add now (int64_mul (-1) Hour)) then
              mkStorage (delete name (buckets s))
            else s in
          Clean_range entries s h
      end
  end.

(** [func (s *Storage) Clean(name string)]: the parameter is shadowed by the
    loop variable.  Go leaves the order of a range over a map open;
    [map_to_list] is one such order. *)
Definition Clean (s : Storage) (name : string) (h : Heap) : Prog clockE Storage :=
  Clean_range (map_to_list (buckets s)) s h.

End memory.

(* ================================================================== *)
(** * The redis connection *)
(* ================================================================== *)

(** The commands the package sends with [conn.Do]. *)
Inductive Cmd : Type :=
| GET (key : string)
| INCRBY (key : string) (amount : Z)
| PEXPIRE (key : string) (milliseconds : Z)
| PTTL (key : string)
| PING.

(** The [interface{}] half of what [conn.Do] returns. *)
Inductive Reply : Type :=
| RNil                      (* nil *)
| RBulk (arr : list byte)   (* []uint8 *)
| RInt (n : Z)              (* int64 *)
| RStatus (s : string).     (* string *)

Inductive connE : Type -> Type :=
| ConnDo (c : Cmd) : connE (Reply * option error).

Inductive sumE (E F : Type -> Type) (X : Type) : Type :=
| in_left (e : E X)
| in_right (f : F X).

Arguments in_left {E F X} e.
Arguments in_right {E F X} f.

Definition redisE : Type -> Type := sumE clockE connE.

(** The outside world of the redis backend: a clock and a server, both
    answering from some state [W]. *)
Record Env (W : Type) : Type := mkEnv {
  env_now : W -> Time * W;
  env_do : Cmd -> W -> (Reply * option error) * W
}.

Arguments mkEnv {W} env_now env_do.
Arguments env_now {W} e w.
Arguments env_do {W} e c w.

(** Answer the events from the environment and write down every command. *)
Definition serve {W : Type} (env : Env W) : Handler redisE (W * list Cmd) :=
  fun X e =>
    match e with
    | in_left c =>
        match c in clockE X return W * list Cmd -> X * (W * list Cmd) with
        | TimeNow => fun '(w, log) =>
            let '(t, w') := env_now env w in (t, (w', log))
        end
    | in_right d =>
        match d in connE X return W * list Cmd -> X * (W * list Cmd) with
        | ConnDo c => fun '(w, log) =>
            let '(r, w') := env_do env c w in (r, (w', log ++ [c]))
        end
    end.

(** A run gives the outcome, the world it leaves and the commands it sent. *)
Definition run {W R : Type} (env : Env W) (p : Prog redisE R) (w : W)
    : Outcome R * W * list Cmd :=
  let '(out, (w', log)) := interp (serve env) p (w, []) in (out, w', log).

(* ================================================================== *)
(** * package redis *)
(* ================================================================== *)

Module redis.

Import leakybucket.

(** The [pool] field is left out: every connection it lends talks to the one
    server of the environment. *)
Record bucket : Type := mkBucket {
  name : string;
  capacity : Z;       (* uint *)
  remaining : Z;      (* uint *)
  reset : Time;
  rate : Duration
}.

Definition set_remaining (b : bucket) (n : Z) : bucket :=
  mkBucket (name b) (capacity b) n (reset b) (rate b).
Definition set_reset (b : bucket) (t : Time) : bucket :=
  mkBucket (name b) (capacity b) (remaining b) t (rate b).

Definition Capacity (b : bucket) : Z := capacity b.
Definition Remaining (b : bucket) : Z := remaining b.
Definition Reset (b : bucket) : Time := reset b.

(** [func (b *bucket) State() leakybucket.BucketState] *)
Definition State (b : bucket) : BucketState :=
  mkBucketState (Capacity b) (Remaining b) (Reset b).

(** [func min(a, b uint) uint] *)
Definition min (a b : Z) : Z := if a <? b then a else b.

(** [func byteArrayToUint(arr []uint8) (uint, error)] *)
Definition byteArrayToUint (arr : list byte) : Z * option error :=
  match Atoi arr with
  | (num, Some err) => (0, Some err)
  | (num, None) => (uint num, None)
  end.

(** [var millisecond = int64(time.Millisecond)] *)
Definition millisecond : Z := int64 Millisecond.

Definition time_Now : Prog redisE Time := trigger (in_left TimeNow).
Definition conn_Do (c : Cmd) : Prog redisE (Reply * option error) :=
  trigger (in_right (ConnDo c)).

(** A failed type assertion [x.(T)]. *)
Definition bad_assertion {R : Type} : Prog redisE R :=
  Panic "interface conversion".

(** [func (b *bucket) updateOldReset() error] *)
Definition updateOldReset (b : bucket) : Prog redisE (bucket * option error) :=
  let* now := time_Now in
  if Time_Unix (reset b) >? Time_Unix now then Ret (b, None)
  else
    let* '(ttl, err) := conn_Do (PTTL (name b)) in
    match err with
    | Some err => Ret (b, Some err)
    | None =>
        let* now := time_Now in
        match ttl with
        | RInt ttl =>
            Ret (set_reset b (Time_Add now (int64_mul ttl millisecond)), None)
        | _ => bad_assertion
        end
    end.

(** Lines 77-98 of [Add]: what follows once [b.remaining] has been read. *)
Definition Add_checked (b : bucket) (amount : Z)
    : Prog redisE (bucket * (BucketState * option error)) :=
  if amount >? remaining b then
    let* '(b, _) := updateOldReset b in
    Ret (b, (State b, Some ErrorFull))
  else
    let expiry := int64_div (Nanoseconds (rate b)) millisecond in
    let* '(count, err) := conn_Do (INCRBY (name b) amount) in
    match err with
    | Some err => Ret (b, (State b, Some err))
    | None =>
        match count with
        | RInt count =>
            let* stop :=
              if uint count =? amount then
                let* '(_, err) := conn_Do (PEXPIRE (name b) expiry) in
                Ret err
              else Ret None in
            match stop with
            | Some err => Ret (b, (State b, Some err))
            | None =>
                let* '(b, _) := updateOldReset b in
                let b :=
                  set_remaining b (uint_sub (capacity b) (min (uint count) (capacity b))) in
                Ret (b, (State b, None))
            end
        | _ => bad_assertion
        end
    end.

(** [func (b *bucket) Add(amount uint) (leakybucket.BucketState, error)] *)
Definition Add (b : bucket) (amount : Z)
    : Prog redisE (bucket * (BucketState * option error)) :=
  let* '(count, err) := conn_Do (GET (name b)) in
  match err with
  | Some err => Ret (b, (State b, Some err))
  | None =>
      match count with
      | RNil => Add_checked (set_remaining b (capacity b)) amount
      | RBulk arr =>
          match byteArrayToUint arr with
          | (num, Some err) => Ret (b, (State b, Some err))
          | (num, None) =>
              Add_checked
                (set_remaining b (uint_sub (capacity b) (min (uint num) (capacity b))))
                amount
          end
      | _ => bad_assertion
      end
  end.

(** What lines 67-75 of [Add] make of a reply to GET that came without an
    error: the quota they store in [b.remaining], or nothing when they
    return early. *)
Definition remaining_read (capacity : Z) (count : Reply) : option Z :=
  match count with
  | RNil => Some capacity
  | RBulk arr =>
      match byteArrayToUint arr with
      | (num, None) => Some (uint_sub capacity (min (uint num) capacity))
      | (num, Some err) => None
      end
  | _ => None
  end.

(** [type Storage struct { pool *redis.Pool }]: nothing but the pool. *)
Inductive Storage : Type := mkStorage.

(** [func (s *Storage) Create(name string, capacity uint, rate time.Duration)
     (leakybucket.Bucket, error)]; [None] is the nil bucket. *)
Definition Create (s : Storage) (name : string) (capacity : Z) (rate : Duration)
    : Prog redisE (option bucket * option error) :=
  let* '(count, err) := conn_Do (GET name) in
  match err with
  | Some err => Ret (None, Some err)
  | None =>
      match count with
      | RNil =>
          let* now := time_Now in
          Ret (Some (mkBucket name capacity capacity (Time_Add now rate) rate), None)
      | RBulk arr =>
          match byteArrayToUint arr with
          | (num, Some err) => Ret (None, Some err)
          | (num, None) =>
              let* '(ttl, err) := conn_Do (PTTL name) in
              match err with
              | Some err => Ret (None, Some err)
              | None =>
                  let* now := time_Now in
                  match ttl with
                  | RInt ttl =>
                      Ret (Some (mkBucket name capacity
                                   (uint_sub capacity (min capacity num))
                                   (Time_Add now (int64_mul ttl millisecond))
                                   rate), None)
                  | _ => bad_assertion
                  end
              end
          end
      | _ => bad_assertion
      end
  end.

(** [func New(network, address string)], returning a [*Storage] and an
    [error]: the pool is built and a PING tells whether the server answers. *)
Definition New : Prog redisE (option Storage * option error) :=
  let* '(_, err) := conn_Do PING in
  match err with
  | Some err => Ret (None, Some err)
  | None => Ret (Some mkStorage, None)
  end.

End redis.

(* ================================================================== *)
(** * A redis server to run against *)
(* ================================================================== *)

(** The package talks to a server it does not contain.  The statements below
    hold for every environment; this one, which follows the documented
    behaviour of GET, INCRBY, PEXPIRE and PTTL, is what the examples run
    against. *)
Module server.

Record Entry : Type := mkEntry {
  value : list byte;
  expire_at : option Time
}.

Record World : Type := mkWorld {
  clock : Time;                (* the time it is *)
  pace : Duration;             (* how far each reading of the clock moves it *)
  db : gmap string Entry;
  up : bool                    (* whether the server can be reached *)
}.

Definition set_db (w : World) (d : gmap string Entry) : World :=
  mkWorld (clock w) (pace w) d (up w).

(** Let [d] go by. *)
Definition sleep (d : Duration) (w : World) : World :=
  mkWorld (clock w + d) (pace w) (db w) (up w).

(** Decimal digits of an integer. *)
Definition itoa (z : Z) : list byte :=
  String.list_byte_of_string (NilZero.string_of_int (Z.to_int z)).

(** The entry under a key, unless it has expired. *)
Definition find (k : string) (w : World) : option Entry :=
  match db w !! k with
  | Some e =>
      match expire_at e with
      | Some t => if t <=? clock w then None else Some e
      | None => Some e
      end
  | None => None
  end.

Definition refused : Reply * option error :=
  (RNil, Some (ConnError "connection refused")).
Definition not_an_integer : Reply * option error :=
  (RNil, Some (ConnError "ERR value is not an integer or out of range")).

Definition do (c : Cmd) (w : World) : (Reply * option error) * World :=
  if up w then
    match c with
    | GET k =>
        match find k w with
        | Some e => ((RBulk (value e), None), w)
        | None => ((RNil, None), w)
        end
    | INCRBY k n =>
        let '(old, exp) :=
          match find k w with
          | Some e => (Atoi (value e), expire_at e)
          | None => ((0, None), None)
          end in
        match old with
        | (v, None) =>
            if in_int_range n && in_int_range (v + n) then
              ((RInt (v + n), None),
               set_db w (<[k := mkEntry (itoa (v + n)) exp]> (db w)))
            else (not_an_integer, w)
        | (_, Some _) => (not_an_integer, w)
        end
    | PEXPIRE k ms =>
        match find k w with
        | Some e =>
            ((RInt 1, None),
             set_db w (<[k := mkEntry (value e) (Some (clock w + ms * Millisecond))]> (db w)))
        | None => ((RInt 0, None), w)
        end
    | PTTL k =>
        match find k w with
        | None => ((RInt (-2), None), w)
        | Some e =>
            match expire_at e with
            | None => ((RInt (-1), None), w)
            | Some t => ((RInt ((t - clock w) / Millisecond), None), w)
            end
        end
    | PING => ((RStatus "PONG", None), w)
    end
  else (refused, w).

Definition now (w : World) : Time * World :=
  (clock w, mkWorld (clock w + pace w) (pace w) (db w) (up w)).

Definition env : Env World := mkEnv now do.

(** An empty server whose clock reads [t] and stands still during a call. *)
Definition fresh (t : Time) : World := mkWorld t 0 ∅ true.

End server.



(* ================================================================== *)
(** * Histories *)
(* ================================================================== *)

(** The invariant of the data model: [0 <= remaining <= capacity]. *)
Definition within_capacity (capacity remaining : Z) : Prop :=
  0 <= remaining <= capacity.

(** Well-formed buckets: the capacity is a [uint] and the invariant holds. *)
Definition memory_sound (b : memory.bucket) : Prop :=
  is_uint (memory.capacity b) /\
  within_capacity (memory.capacity b) (memory.remaining b).

Definition redis_sound (b : redis.bucket) : Prop :=
  is_uint (redis.capacity b) /\
  within_capacity (redis.capacity b) (redis.remaining b).

(** Sum of a list of amounts. *)
Definition sum_of (amounts : list Z) : Z := foldr Z.add 0 amounts.

(** A series of [Add] calls on one memory bucket, one after the other on the
    same clock; the amounts that were accepted are handed back. *)
Fixpoint Adds (b : memory.bucket) (amounts : list Z)
    : Prog clockE (memory.bucket * list Z) :=
  match amounts with
  | [] => Ret (b, [])
  | amount :: amounts =>
      let* '(b, (_, err)) := memory.Add b amount in
      let* '(b, accepted) := Adds b amounts in
      Ret (b, match err with
              | None => amount :: accepted
              | Some _ => accepted
              end)
  end.

(** One call on a memory [Storage] and its heap of buckets.  Amounts and
    capacities are [uint]s. *)
Inductive memory_call : memory.Storage * memory.Heap ->
                        memory.Storage * memory.Heap -> Prop :=
| call_Create s h name capacity rate clk s' h' r clk' :
    is_uint capacity ->
    exec (memory.Create s name capacity rate h) clk = (Done ((s', h'), r), clk') ->
    memory_call (s, h) (s', h')
| call_Add s h p amount clk h' r clk' :
    is_uint amount ->
    exec (memory.through p h (fun b => memory.Add b amount)) clk
      = (Done (h', r), clk') ->
    memory_call (s, h) (s, h')
| call_AddWithTime s h p amount t clk h' r clk' :
    is_uint amount ->
    exec (memory.through p h (fun b => memory.AddWithTime b amount t)) clk
      = (Done (h', r), clk') ->
    memory_call (s, h) (s, h')
| call_Clean s h name clk s' clk' :
    exec (memory.Clean s name h) clk = (Done s', clk') ->
    memory_call (s, h) (s', h).

(** The states a memory [Storage] can be in: any number of calls after
    [New]. *)
Definition memory_reachable (sh : memory.Storage * memory.Heap) : Prop :=
  rtc memory_call (memory.New, []) sh.

(** The redis buckets a program can hold: made by [Create], then passed
    through [Add] and [updateOldReset], against any environment. *)
Inductive redis_reachable : redis.bucket -> Prop :=
| made_by_Create (W : Type) (env : Env W) (w : W) s name capacity rate b e w' log :
    is_uint capacity ->
    run env (redis.Create s name capacity rate) w = (Done (Some b, e), w', log) ->
    redis_reachable b
| kept_by_Add (W : Type) (env : Env W) (w : W) b amount b' r w' log :
    redis_reachable b ->
    is_uint amount ->
    run env (redis.Add b amount) w = (Done (b', r), w', log) ->
    redis_reachable b'
| kept_by_updateOldReset (W : Type) (env : Env W) (w : W) b b' e w' log :
    redis_reachable b ->
    run env (redis.updateOldReset b) w = (Done (b', e), w', log) ->
    redis_reachable b'.

(** A call of [method] through the pointer that the map holds under [name]
    returns and leaves [updated] at the first reading [clk 0] of the clock;
    a [Clean] all of whose clock readings come within the hour after
    [clk 0] then keeps the entry. *)
Definition touched_and_kept (s : memory.Storage) (h : memory.Heap)
    (name : string) (p : nat) (clk : Clock)
    (method : memory.bucket -> Prog clockE memory.AddResult) : Prop :=
  exists h' r clk' b',
    exec (memory.through p h method) clk = (Done (h', r), clk') /\
    h' !! p = Some b' /\
    memory.updated b' = clk 0%nat /\
    forall (name0 : string) (clk2 : Clock),
      (forall i, clk2 i <= clk 0%nat + Hour) ->
      exists s' clk3,
        exec (memory.Clean s name0 h') clk2 = (Done s', clk3) /\
        memory.buckets s' !! name = Some p.

(* ================================================================== *)
(** * Scenarios *)
(* ================================================================== *)

(** Concrete buckets, storages and servers for the examples. *)
Module scenario.

(** A memory [Storage] whose one bucket, under "a", is empty until ten
    o'clock and was last touched at time 0. *)
Definition idle_storage : memory.Storage := memory.mkStorage {[ "a" := 0%nat ]}.
Definition idle_heap : memory.Heap := [memory.mkBucket 10 0 (10 * Hour) Hour 0].

(** The memory [Storage] after [Create "a" 10 Second] and [Add 4], all at
    time 0. *)
Definition used_storage : memory.Storage :=
  memory.mkStorage (<["a" := 0%nat]> ∅).
Definition used_heap : memory.Heap := [memory.mkBucket 10 6 Second Second 0].

(** A redis bucket as [Create "k" 10 Hour] makes it at time 0 on an empty
    server. *)
Definition hourly : redis.bucket := redis.mkBucket "k" 10 10 Hour Hour.

(** The empty server ten seconds later, and two hours later. *)
Definition ten_past : server.World := server.sleep (10 * Second) (server.fresh 0).
Definition two_hours_on : server.World := server.sleep (2 * Hour) (server.fresh 0).

(** A server at time 0 whose key "k" holds [value] and never expires. *)
Definition holding (value : list byte) : server.World :=
  server.mkWorld 0 0 {[ "k" := server.mkEntry value None ]} true.

End scenario.

(* ================================================================== *)
(** * Further notions *)
(* ================================================================== *)

(** The key a command is about. *)
Definition key_of (c : Cmd) : option string :=
  match c with
  | GET key | INCRBY key _ | PEXPIRE key _ | PTTL key => Some key
  | PING => None
  end.

(** A memory [Storage] and its heap fit together: every pointer of the map
    is a live cell, and two names never share a cell. *)
Definition storage_wf (s : memory.Storage) (h : memory.Heap) : Prop :=
  (forall name p, memory.buckets s !! name = Some p -> is_Some (h !! p)) /\
  (forall n1 n2 p,
      memory.buckets s !! n1 = Some p -> memory.buckets s !! n2 = Some p -> n1 = n2).

(** A bucket that no reading of the clock finds touched within the last
    hour, and one that every reading does. *)
Definition idle (b : memory.bucket) (clk : Clock) : Prop :=
  forall i, memory.updated b < clk i - Hour.
Definition active (b : memory.bucket) (clk : Clock) : Prop :=
  forall i, clk i - Hour <= memory.updated b.

(** An environment that answers from a script: the clock reads the listed
    times and the connection gives the listed replies, in order, whatever
    the command; a script that has run out reads time 0 and reports a
    closed connection. *)
Module script.

Record World : Type := mkWorld {
  times : list Time;
  replies : list (Reply * option error)
}.

Definition now (w : World) : Time * World :=
  match times w with
  | [] => (0, w)
  | t :: ts => (t, mkWorld ts (replies w))
  end.

Definition do (c : Cmd) (w : World) : (Reply * option error) * World :=
  match replies w with
  | [] => ((RNil, Some (ConnError "EOF")), w)
  | r :: rs => (r, mkWorld (times w) rs)
  end.

Definition env : Env World := mkEnv now do.

(** A reply that arrives, and a connection that fails. *)
Definition ok (r : Reply) : Reply * option error := (r, None).
Definition timeout : Reply * option error :=
  (RNil, Some (ConnError "i/o timeout")).

End script.

(* ================================================================== *)
(** * Facts about runs *)
(* ================================================================== *)

Section Running.

Context {E : Type -> Type} {W : Type} (h : Handler E W).

Lemma interp_bind {A B : Type} (p : Prog E A) (f : A -> Prog E B) (w : W) :
  interp h (bind p f) w =
  match interp h p w with
  | (Done a, w') => interp h (f a) w'
  | (Panicked msg, w') => (Panicked msg, w')
  end.
Proof.
  revert w. induction p as [a | msg | X e k IH]; intros w; simpl.
  - reflexivity.
  - reflexivity.
  - destruct (h X e w) as [x w']. apply IH.
Qed.

End Running.

Lemma exec_bind {A B : Type} (p : Prog clockE A) (f : A -> Prog clockE B)
    (clk : Clock) :
  exec (bind p f) clk =
  match exec p clk with
  | (Done a, clk') => exec (f a) clk'
  | (Panicked msg, clk') => (Panicked msg, clk')
  end.
Proof. apply interp_bind. Qed.

(** ** Arithmetic of Go values *)

Lemma uint_small (z : Z) : is_uint z -> uint z = z.
Proof. unfold is_uint, uint. intros H. apply Z.mod_small. exact H. Qed.

Lemma uint_is_uint (z : Z) : is_uint (uint z).
Proof. unfold is_uint, uint. apply Z.mod_pos_bound. lia. Qed.

Lemma uint_sub_small (a b : Z) : 0 <= b <= a -> a < 2 ^ 64 -> uint_sub a b = a - b.
Proof. intros H1 H2. unfold uint_sub. apply uint_small. unfold is_uint. lia. Qed.

Lemma int64_small (z : Z) : is_int64 z -> int64 z = z.
Proof.
  unfold is_int64, int64. intros H.
  rewrite Z.mod_small by lia. lia.
Qed.

(** Negating a duration is exact except at the least [int64]. *)
Lemma int64_negate (d : Z) : - 2 ^ 63 < d < 2 ^ 63 -> int64_mul (-1) d = - d.
Proof. intros H. unfold int64_mul. apply int64_small. unfold is_int64. lia. Qed.

(* ================================================================== *)
(** * package memory: the steps of a call *)
(* ================================================================== *)

Section MemoryRuns.

Import memory.

Lemma exec_rollover (b : bucket) (clk : Clock) :
  exec (rollover b) clk =
  if Time_After (clk 0%nat) (reset b) then
    (Done (mkBucket (capacity b) (capacity b) (Time_Add (clk 1%nat) (rate b))
             (rate b) (updated b)), later 2 clk)
  else (Done b, later 1 clk).
Proof.
  unfold exec, rollover. simpl.
  destruct (Time_After (clk 0%nat) (reset b)); reflexivity.
Qed.

(** [Add] stamps [updated], rolls the window over, then tries to consume. *)
Lemma Add_steps (b : bucket) (amount : Z) (clk : Clock) :
  exec (Add b amount) clk =
  match exec (rollover (set_updated b (clk 0%nat))) (later 1 clk) with
  | (Done b', clk') => (Done (consume b' amount), clk')
  | (Panicked msg, clk') => (Panicked msg, clk')
  end.
Proof.
  unfold exec, Add, rollover, consume, later. simpl.
  destruct (Time_After (clk 1%nat) (reset b)); simpl;
    match goal with |- context [?a >? ?r] => destruct (a >? r) end; reflexivity.
Qed.

(** [AddWithTime] stamps [updated], moves the window by the supplied time,
    then tries to consume. *)
Lemma AddWithTime_steps (b : bucket) (amount : Z) (t : Time) (clk : Clock) :
  exec (AddWithTime b amount t) clk =
  (Done (consume (realign (rollover_at (set_updated b (clk 0%nat)) t) t) amount),
   later 1 clk).
Proof.
  unfold exec, AddWithTime, realign, rollover_at, consume. simpl.
  destruct (Time_After t (reset b)); simpl;
    match goal with |- context [Time_Before ?x ?y] => destruct (Time_Before x y) end;
    simpl;
    match goal with |- context [?a >? ?r] => destruct (a >? r) end; reflexivity.
Qed.

(** The whole of [Add] on a clock. *)
Lemma exec_Add (b : bucket) (amount : Z) (clk : Clock) :
  exec (Add b amount) clk =
  (Done (consume (entering b clk) amount),
   if Time_After (clk 1%nat) (reset b) then later 3 clk else later 2 clk).
Proof.
  rewrite Add_steps, exec_rollover. unfold entering, later. simpl.
  destruct (Time_After (clk 1%nat) (reset b)); reflexivity.
Qed.

Lemma consume_capacity (b : bucket) (amount : Z) :
  capacity (fst (consume b amount)) = capacity b.
Proof. unfold consume. destruct (amount >? remaining b); reflexivity. Qed.

Lemma consume_reset (b : bucket) (amount : Z) :
  reset (fst (consume b amount)) = reset b.
Proof. unfold consume. destruct (amount >? remaining b); reflexivity. Qed.

Lemma consume_rate (b : bucket) (amount : Z) :
  rate (fst (consume b amount)) = rate b.
Proof. unfold consume. destruct (amount >? remaining b); reflexivity. Qed.

Lemma consume_updated (b : bucket) (amount : Z) :
  updated (fst (consume b amount)) = updated b.
Proof. unfold consume. destruct (amount >? remaining b); reflexivity. Qed.

Lemma consume_snapshot (b : bucket) (amount : Z) :
  fst (snd (consume b amount)) = snapshot (fst (consume b amount)).
Proof. unfold consume. destruct (amount >? remaining b); reflexivity. Qed.


Lemma consume_sound (b : bucket) (amount : Z) :
  is_uint amount -> memory_sound b -> memory_sound (fst (consume b amount)).
Proof.
  unfold memory_sound, within_capacity, is_uint, consume. intros Ha [Hc Hr].
  destruct (Z.gtb_spec amount (remaining b)); cbn; [tauto |].
  rewrite uint_sub_small by lia. lia.
Qed.

(** Both methods return, and leave [updated] at the first reading of the
    clock. *)
Lemma Add_returns (b : bucket) (amount : Z) (clk : Clock) :
  exists b' r clk',
    exec (Add b amount) clk = (Done (b', r), clk') /\ updated b' = clk 0%nat.
Proof.
  rewrite exec_Add.
  exists (fst (consume (entering b clk) amount)), (snd (consume (entering b clk) amount)).
  eexists. split; [rewrite <- surjective_pairing; reflexivity |].
  rewrite consume_updated. unfold entering.
  destruct (Time_After (clk 1%nat) (reset b)); reflexivity.
Qed.

Lemma AddWithTime_returns (b : bucket) (amount : Z) (t : Time) (clk : Clock) :
  exists b' r clk',
    exec (AddWithTime b amount t) clk = (Done (b', r), clk') /\ updated b' = clk 0%nat.
Proof.
  rewrite AddWithTime_steps.
  match goal with |- context [consume ?x amount] =>
    exists (fst (consume x amount)), (snd (consume x amount)) end.
  eexists. split; [rewrite <- surjective_pairing; reflexivity |].
  rewrite consume_updated. unfold realign, rollover_at.
  repeat case_match; reflexivity.
Qed.

Lemma exec_through {A : Type} (p : ptr) (h : Heap) (b : bucket)
    (method : bucket -> Prog clockE (bucket * A)) (clk : Clock) :
  h !! p = Some b ->
  exec (through p h method) clk =
  match exec (method b) clk with
  | (Done (b', a), clk') => (Done (<[p := b']> h, a), clk')
  | (Panicked msg, clk') => (Panicked msg, clk')
  end.
Proof.
  intros Hp. unfold through. rewrite Hp, exec_bind.
  destruct (exec (method b) clk) as [[[b' a] | msg] clk']; reflexivity.
Qed.

Lemma exec_Create (s : Storage) (name : string) (c : Z) (r : Duration) (h : Heap)
    (clk : Clock) :
  exec (Create s name c r h) clk =
  match buckets s !! name with
  | Some p => (Done ((s, h), (p, None)), clk)
  | None =>
      (Done ((mkStorage (<[name := length h]> (buckets s)),
              h ++ [mkBucket c c (Time_Add (clk 0%nat) r) r (clk 1%nat)]),
             (length h, None)), later 2 clk)
  end.
Proof. unfold Create. destruct (buckets s !! name); reflexivity. Qed.

(** [Clean] keeps an entry whose bucket was touched within the hour before
    every reading of the clock, whatever the order of the range. *)
Lemma Clean_range_keeps (name : string) (h : Heap) (entries : list (string * ptr)) :
  forall (s : Storage) (clk : Clock),
    (forall nm q, (nm, q) ∈ entries -> is_Some (h !! q)) ->
    (forall q b, (name, q) ∈ entries -> h !! q = Some b ->
                 forall i, clk i <= updated b + Hour) ->
    exists s' clk',
      exec (Clean_range entries s h) clk = (Done s', clk') /\
      buckets s' !! name = buckets s !! name.
Proof.
  induction entries as [| [nm q] entries IH]; intros s clk Hlive Hfresh.
  - exists s, clk. split; reflexivity.
  - destruct (Hlive nm q) as [b Hb]; [left |].
    cbn [Clean_range]. rewrite Hb, exec_bind. cbn.
    match goal with |- context [exec (Clean_range entries ?s1 h) ?c1] =>
      destruct (IH s1 c1) as (s' & clk' & Hrun & Hkeep) end.
    + intros nm' q' Hin. apply (Hlive nm' q'). right. exact Hin.
    + intros q' b' Hin Hq' i. apply (Hfresh q' b'); [right; exact Hin | exact Hq'].
    + exists s', clk'. split; [exact Hrun |]. rewrite Hkeep.
      unfold Time_Before, Time_Add.
      destruct (Z.ltb_spec (updated b) (clk 0%nat + int64_mul (-1) Hour))
        as [Hold | Hyoung]; [| reflexivity].
      cbn [buckets]. destruct (decide (nm = name)) as [-> | Hne].
      * exfalso. pose proof (Hfresh q b ltac:(left) Hb 0%nat) as Hle.
        change (int64_mul (-1) Hour) with (- Hour) in Hold. lia.
      * apply lookup_delete_ne. exact Hne.
Qed.

Section Eviction.

(** Either method, called through the pointer the map holds. *)
Variable method : bucket -> Prog clockE AddResult.
Hypothesis method_returns :
  forall b clk, exists b' r clk',
    exec (method b) clk = (Done (b', r), clk') /\ updated b' = clk 0%nat.

Lemma call_defers_eviction (s : Storage) (h : Heap) (name : string) (p : ptr)
    (clk : Clock) :
  buckets s !! name = Some p ->
  (forall nm q, buckets s !! nm = Some q -> is_Some (h !! q)) ->
  touched_and_kept s h name p clk method.
Proof.
  intros Hname Hlive.
  destruct (Hlive name p Hname) as [b Hb].
  destruct (method_returns b clk) as (b' & r & clk' & Hrun & Hupd).
  exists (<[p := b']> h), r, clk', b'.
  assert (Hp' : <[p := b']> h !! p = Some b').
  { apply list_lookup_insert_eq. eapply lookup_lt_Some. exact Hb. }
  split; [rewrite (exec_through p h b) by exact Hb; rewrite Hrun; reflexivity |].
  split; [exact Hp' |]. split; [exact Hupd |].
  intros name0 clk2 Hclk2. unfold Clean.
  destruct (Clean_range_keeps name (<[p := b']> h) (map_to_list (buckets s)) s clk2)
    as (s' & clk3 & Hclean & Hkeep).
  - intros nm q Hin. apply elem_of_map_to_list in Hin.
    destruct (Hlive nm q Hin) as [bq Hbq].
    apply lookup_lt_is_Some_2. rewrite length_insert. eapply lookup_lt_Some. exact Hbq.
  - intros q bq Hin Hq i. apply elem_of_map_to_list in Hin.
    rewrite Hname in Hin. injection Hin as <-.
    rewrite Hp' in Hq. injection Hq as <-. rewrite Hupd. apply Hclk2.
  - exists s', clk3. split; [exact Hclean |]. rewrite Hkeep. exact Hname.
Qed.

End Eviction.

(** Inside a window every accepted amount comes off [remaining]. *)
Lemma Adds_inside_window (amounts : list Z) :
  forall (b : bucket) (clk : Clock),
    0 <= remaining b < 2 ^ 64 ->
    Forall is_uint amounts ->
    (forall i, clk i <= reset b) ->
    exists (b' : bucket) (accepted : list Z) (clk' : Clock),
      exec (Adds b amounts) clk = (Done (b', accepted), clk') /\
      capacity b' = capacity b /\ reset b' = reset b /\ rate b' = rate b /\
      0 <= remaining b' /\
      remaining b' + sum_of accepted = remaining b.
Proof.
  induction amounts as [| amount amounts IH]; intros b clk Hrem Hamounts Hclk.
  - exists b, [], clk. simpl. repeat split; [lia | lia].
  - apply Forall_cons in Hamounts as [Hamount Hamounts].
    cbn [Adds]. rewrite exec_bind, exec_Add. unfold entering, Time_After.
    destruct (Z.ltb_spec (reset b) (clk 1%nat)) as [Hroll | _];
      [pose proof (Hclk 1%nat); lia |].
    unfold consume; cbn [remaining].
    destruct (Z.gtb_spec amount (remaining b)) as [Hfull | Hfits].
    + destruct (IH (mkBucket (capacity b) (remaining b) (reset b) (rate b) (clk 0%nat))
                  (later 2 clk))
        as (b' & accepted & clk' & Hrun & Hc & Hr & Hrt & H0 & Hsum);
        [exact Hrem | exact Hamounts | intros i; apply Hclk |].
      rewrite exec_bind, Hrun. exists b', accepted, clk'.
      repeat split; assumption.
    + unfold is_uint in Hamount.
      rewrite uint_sub_small by lia.
      destruct (IH (set_remaining
                      (mkBucket (capacity b) (remaining b) (reset b) (rate b)
                         (clk 0%nat))
                      (remaining b - amount))
                  (later 2 clk))
        as (b' & accepted & clk' & Hrun & Hc & Hr & Hrt & H0 & Hsum);
        [cbn; lia | exact Hamounts | intros i; apply Hclk |].
      rewrite exec_bind, Hrun. exists b', (amount :: accepted), clk'.
      cbn [set_remaining capacity reset rate remaining] in *.
      repeat split; try assumption.
      unfold sum_of in *. cbn [foldr]. lia.
Qed.

(** ** The invariant on the heap of a [Storage] *)

Lemma Add_sound (b b' : bucket) (amount : Z) r (clk clk' : Clock) :
  is_uint amount -> memory_sound b ->
  exec (Add b amount) clk = (Done (b', r), clk') -> memory_sound b'.
Proof.
  intros Ha Hb. rewrite exec_Add. intros Heq. injection Heq as Heq _.
  apply (f_equal fst) in Heq; cbn [fst] in Heq; subst b'.
  apply consume_sound; [exact Ha |].
  destruct Hb as [Hc Hr]. unfold entering, memory_sound, within_capacity, is_uint in *.
  destruct (Time_After (clk 1%nat) (reset b)); cbn; lia.
Qed.

Lemma AddWithTime_sound (b b' : bucket) (amount : Z) (t : Time) r (clk clk' : Clock) :
  is_uint amount -> memory_sound b ->
  exec (AddWithTime b amount t) clk = (Done (b', r), clk') -> memory_sound b'.
Proof.
  intros Ha Hb. rewrite AddWithTime_steps. intros Heq.
  injection Heq as Heq _.
  apply (f_equal fst) in Heq; cbn [fst] in Heq; subst b'.
  apply consume_sound; [exact Ha |].
  destruct Hb as [Hc Hr].
  unfold realign, rollover_at, memory_sound, within_capacity, is_uint in *.
  repeat case_match; cbn; lia.
Qed.

Lemma through_sound (p : ptr) (h h' : Heap) r (clk clk' : Clock)
    (method : bucket -> Prog clockE AddResult) :
  (forall b b' r clk clk',
      memory_sound b -> exec (method b) clk = (Done (b', r), clk') -> memory_sound b') ->
  Forall memory_sound h ->
  exec (through p h method) clk = (Done (h', r), clk') ->
  Forall memory_sound h'.
Proof.
  intros Hm Hh. unfold through.
  destruct (h !! p) as [b |] eqn:Hp; [| discriminate].
  rewrite exec_bind.
  destruct (exec (method b) clk) as [[[b' a] | msg] clk0] eqn:Hrun; [| discriminate].
  cbn. intros Heq. injection Heq as <- _ _.
  apply Forall_insert; [exact Hh |].
  eapply Hm; [| exact Hrun]. eapply Forall_lookup_1; eassumption.
Qed.

Lemma memory_call_sound (s s' : Storage) (h h' : Heap) :
  memory_call (s, h) (s', h') -> Forall memory_sound h -> Forall memory_sound h'.
Proof.
  intros Hcall Hh. inversion Hcall as
      [ s0 h0 name c rt clk s1 h1 r clk' Hc Hrun
      | s0 h0 p amount clk h1 r clk' Ha Hrun
      | s0 h0 p amount t clk h1 r clk' Ha Hrun
      | s0 h0 name clk s1 clk' Hrun ]; subst.
  - rewrite exec_Create in Hrun.
    destruct (buckets s !! name); injection Hrun as <- <- _ _; [exact Hh |].
    apply Forall_app. split; [exact Hh |].
    apply Forall_singleton. unfold memory_sound, within_capacity, is_uint in *.
    cbn. lia.
  - eapply through_sound; [| exact Hh | exact Hrun].
    intros b b' r0 c0 c1 Hb. apply Add_sound; assumption.
  - eapply through_sound; [| exact Hh | exact Hrun].
    intros b b' r0 c0 c1 Hb. apply AddWithTime_sound; assumption.
  - exact Hh.
Qed.

Lemma memory_calls_sound (x y : Storage * Heap) :
  rtc memory_call x y -> Forall memory_sound (snd x) -> Forall memory_sound (snd y).
Proof.
  induction 1 as [x | [s h] [s1 h1] z Hstep Hrest IH]; intros Hx.
  - exact Hx.
  - apply IH. cbn in *. eapply memory_call_sound; eassumption.
Qed.

Lemma memory_reachable_sound (s : Storage) (h : Heap) :
  memory_reachable (s, h) -> Forall memory_sound h.
Proof.
  intros Hreach. apply (memory_calls_sound _ _ Hreach). constructor.
Qed.

(** A second [Create] under a name finds the bucket of the first. *)
Lemma memory_Create_twice (s : Storage) (h : Heap) (name : string)
    (c c' : Z) (r r' : Duration) (clk : Clock) :
  exists s1 h1 p clk1,
    exec (Create s name c r h) clk = (Done ((s1, h1), (p, None)), clk1) /\
    buckets s1 !! name = Some p /\
    forall clk2,
      exec (Create s1 name c' r' h1) clk2 = (Done ((s1, h1), (p, None)), clk2).
Proof.
  rewrite exec_Create.
  destruct (buckets s !! name) as [p |] eqn:Hname.
  - exists s, h, p, clk. split; [reflexivity |]. split; [exact Hname |].
    intros clk2. rewrite exec_Create, Hname. reflexivity.
  - eexists _, _, _, _. split; [reflexivity |]. cbn [buckets].
    split; [apply lookup_insert_eq |].
    intros clk2. rewrite exec_Create. cbn [buckets]. rewrite lookup_insert_eq.
    reflexivity.
Qed.

End MemoryRuns.

(* ================================================================== *)
(** * package redis: the steps of a call *)
(* ================================================================== *)

Section RedisRuns.

Import leakybucket redis.

Context {W : Type} (env : Env W).

(** The log a run starts with stays in front of what it adds. *)
Lemma serve_log {R : Type} (p : Prog redisE R) :
  forall (w : W) (log0 : list Cmd),
    interp (serve env) p (w, log0) =
    let '(out, (w', log)) := interp (serve env) p (w, []) in (out, (w', log0 ++ log)).
Proof.
  induction p as [r | msg | X e k IH]; intros w log0.
  - cbn. rewrite app_nil_r. reflexivity.
  - cbn. rewrite app_nil_r. reflexivity.
  - destruct e as [c | d].
    + destruct c. cbn. destruct (env_now env w) as [t w1]. apply IH.
    + destruct d as [c]. cbn. destruct (env_do env c w) as [r w1].
      rewrite (IH r w1 (log0 ++ [c])), (IH r w1 [c]).
      destruct (interp (serve env) (k r) (w1, [])) as [out [w' log]].
      rewrite app_assoc. reflexivity.
Qed.

Lemma run_bind {A B : Type} (p : Prog redisE A) (f : A -> Prog redisE B) (w : W) :
  run env (bind p f) w =
  match run env p w with
  | (Done a, w1, log1) =>
      let '(out, w2, log2) := run env (f a) w1 in (out, w2, log1 ++ log2)
  | (Panicked msg, w1, log1) => (Panicked msg, w1, log1)
  end.
Proof.
  unfold run. rewrite interp_bind.
  destruct (interp (serve env) p (w, [])) as [[a | msg] [w1 log1]]; [| reflexivity].
  rewrite serve_log.
  destruct (interp (serve env) (f a) (w1, [])) as [out [w2 log2]]. reflexivity.
Qed.

Lemma run_time_Now (w : W) :
  run env time_Now w = let '(t, w1) := env_now env w in (Done t, w1, []).
Proof. unfold run. cbn. destruct (env_now env w). reflexivity. Qed.

Lemma run_conn_Do (c : Cmd) (w : W) :
  run env (conn_Do c) w = let '(r, w1) := env_do env c w in (Done r, w1, [c]).
Proof. unfold run. cbn. destruct (env_do env c w). reflexivity. Qed.

(** ** [updateOldReset] *)

Lemma run_updateOldReset (b : bucket) (w : W) :
  run env (updateOldReset b) w =
  let '(now, w1) := env_now env w in
  if Time_Unix (reset b) >? Time_Unix now then (Done (b, None), w1, [])
  else
    let '((ttl, err), w2) := env_do env (PTTL (name b)) w1 in
    match err with
    | Some err => (Done (b, Some err), w2, [PTTL (name b)])
    | None =>
        let '(now', w3) := env_now env w2 in
        match ttl with
        | RInt ttl =>
            (Done (set_reset b (Time_Add now' (int64_mul ttl millisecond)), None),
             w3, [PTTL (name b)])
        | _ => (Panicked "interface conversion", w3, [PTTL (name b)])
        end
    end.
Proof.
  unfold updateOldReset. rewrite run_bind, run_time_Now.
  destruct (env_now env w) as [now w1].
  destruct (Time_Unix (reset b) >? Time_Unix now); [reflexivity |].
  rewrite run_bind, run_conn_Do.
  destruct (env_do env (PTTL (name b)) w1) as [[ttl [err |]] w2]; [reflexivity |].
  rewrite run_bind, run_time_Now.
  destruct (env_now env w2) as [now' w3].
  destruct ttl; reflexivity.
Qed.

Lemma run_Ret {R : Type} (r : R) (w : W) : run env (Ret r) w = (Done r, w, []).
Proof. reflexivity. Qed.

(** [updateOldReset] touches nothing but [reset], and asks at most PTTL. *)
Lemma updateOldReset_frame (b b' : bucket) (e : option error) (w w' : W)
    (log : list Cmd) :
  run env (updateOldReset b) w = (Done (b', e), w', log) ->
  name b' = name b /\ capacity b' = capacity b /\ remaining b' = remaining b /\
  rate b' = rate b /\ (log = [] \/ log = [PTTL (name b)]).
Proof.
  rewrite run_updateOldReset.
  destruct (env_now env w) as [now w1].
  destruct (Time_Unix (reset b) >? Time_Unix now).
  - intros Heq. injection Heq as <- _ _ <-. auto 10.
  - destruct (env_do env (PTTL (name b)) w1) as [[ttl [err |]] w2].
    + intros Heq. injection Heq as <- _ _ <-. auto 10.
    + destruct (env_now env w2) as [now' w3].
      destruct ttl; intros Heq; try discriminate.
      injection Heq as <- _ _ <-. cbn. auto 10.
Qed.


(** ** [Add] from line 77 on *)

Lemma run_Add_checked (b : bucket) (amount : Z) (w : W) :
  run env (Add_checked b amount) w =
  if amount >? remaining b then
    match run env (updateOldReset b) w with
    | (Done (b', _), w', log) => (Done (b', (State b', Some ErrorFull)), w', log)
    | (Panicked msg, w', log) => (Panicked msg, w', log)
    end
  else
    let '((count, err), w1) := env_do env (INCRBY (name b) amount) w in
    match err with
    | Some err => (Done (b, (State b, Some err)), w1, [INCRBY (name b) amount])
    | None =>
        match count with
        | RInt count =>
            let '(stop, w2, sent) :=
              if uint count =? amount then
                let '((_, err), w2) :=
                  env_do env (PEXPIRE (name b) (int64_div (Nanoseconds (rate b)) millisecond)) w1 in
                (err, w2, [PEXPIRE (name b) (int64_div (Nanoseconds (rate b)) millisecond)])
              else (None, w1, []) in
            match stop with
            | Some err =>
                (Done (b, (State b, Some err)), w2, INCRBY (name b) amount :: sent)
            | None =>
                match run env (updateOldReset b) w2 with
                | (Done (b', _), w3, log) =>
                    let b' :=
                      set_remaining b'
                        (uint_sub (capacity b') (min (uint count) (capacity b'))) in
                    (Done (b', (State b', None)), w3,
                     INCRBY (name b) amount :: sent ++ log)
                | (Panicked msg, w3, log) =>
                    (Panicked msg, w3, INCRBY (name b) amount :: sent ++ log)
                end
            end
        | _ => (Panicked "interface conversion", w1, [INCRBY (name b) amount])
        end
    end.
Proof.
  unfold Add_checked.
  destruct (amount >? remaining b).
  - rewrite run_bind.
    destruct (run env (updateOldReset b) w) as [[[[b' e] | msg] w'] log]; [| reflexivity].
    cbn. rewrite app_nil_r. reflexivity.
  - rewrite run_bind, run_conn_Do.
    destruct (env_do env (INCRBY (name b) amount) w) as [[count [err |]] w1];
      [reflexivity |].
    destruct count; try reflexivity.
    rewrite run_bind.
    destruct (uint n =? amount).
    + rewrite run_bind, run_conn_Do.
      destruct (env_do env (PEXPIRE (name b) _) w1) as [[reply [err |]] w2];
        [reflexivity |].
      rewrite run_Ret. cbv beta iota. rewrite run_bind.
      destruct (run env (updateOldReset b) w2) as [[[[b' e] | msg] w3] log];
        rewrite ?run_Ret; cbv beta iota; rewrite ?app_nil_r; reflexivity.
    + rewrite run_Ret. cbv beta iota. rewrite run_bind.
      destruct (run env (updateOldReset b) w1) as [[[[b' e] | msg] w3] log];
        rewrite ?run_Ret; cbv beta iota; rewrite ?app_nil_r; reflexivity.
Qed.

(** ** [Add] *)

Lemma run_Add (b : bucket) (amount : Z) (w : W) :
  run env (Add b amount) w =
  let '((count, err), w1) := env_do env (GET (name b)) w in
  match err with
  | Some err => (Done (b, (State b, Some err)), w1, [GET (name b)])
  | None =>
      match remaining_read (capacity b) count with
      | Some quota =>
          let '(out, w', log) := run env (Add_checked (set_remaining b quota) amount) w1 in
          (out, w', GET (name b) :: log)
      | None =>
          match count with
          | RBulk arr =>
              (Done (b, (State b, snd (byteArrayToUint arr))), w1, [GET (name b)])
          | _ => (Panicked "interface conversion", w1, [GET (name b)])
          end
      end
  end.
Proof.
  unfold Add. rewrite run_bind, run_conn_Do.
  destruct (env_do env (GET (name b)) w) as [[count [err |]] w1]; [reflexivity |].
  destruct count as [| arr | n | st]; cbn [remaining_read]; try reflexivity.
  destruct (byteArrayToUint arr) as [num [err |]]; reflexivity.
Qed.

(** ** [Create] *)

Lemma run_Create (s : Storage) (nm : string) (c : Z) (r : Duration) (w : W) :
  run env (Create s nm c r) w =
  let '((count, err), w1) := env_do env (GET nm) w in
  match err with
  | Some err => (Done (None, Some err), w1, [GET nm])
  | None =>
      match count with
      | RNil =>
          let '(now, w2) := env_now env w1 in
          (Done (Some (mkBucket nm c c (Time_Add now r) r), None), w2, [GET nm])
      | RBulk arr =>
          match byteArrayToUint arr with
          | (num, Some err) => (Done (None, Some err), w1, [GET nm])
          | (num, None) =>
              let '((ttl, err), w2) := env_do env (PTTL nm) w1 in
              match err with
              | Some err => (Done (None, Some err), w2, [GET nm; PTTL nm])
              | None =>
                  let '(now, w3) := env_now env w2 in
                  match ttl with
                  | RInt ttl =>
                      (Done (Some (mkBucket nm c (uint_sub c (min c num))
                                     (Time_Add now (int64_mul ttl millisecond)) r),
                             None), w3, [GET nm; PTTL nm])
                  | _ => (Panicked "interface conversion", w3, [GET nm; PTTL nm])
                  end
              end
          end
      | _ => (Panicked "interface conversion", w1, [GET nm])
      end
  end.
Proof.
  unfold Create. rewrite run_bind, run_conn_Do.
  destruct (env_do env (GET nm) w) as [[count [err |]] w1]; [reflexivity |].
  destruct count as [| arr | n | st]; try reflexivity.
  - rewrite run_bind, run_time_Now. destruct (env_now env w1) as [now w2]. reflexivity.
  - destruct (byteArrayToUint arr) as [num [err |]]; [reflexivity |].
    rewrite run_bind, run_conn_Do.
    destruct (env_do env (PTTL nm) w1) as [[ttl [err |]] w2]; [reflexivity |].
    rewrite run_bind, run_time_Now. destruct (env_now env w2) as [now w3].
    destruct ttl; reflexivity.
Qed.

Lemma updateOldReset_log (b : bucket) (w w' : W)
    (out : Outcome (bucket * option error)) (log : list Cmd) :
  run env (updateOldReset b) w = (out, w', log) ->
  log = [] \/ log = [PTTL (name b)].
Proof.
  rewrite run_updateOldReset.
  destruct (env_now env w) as [now w1].
  destruct (Time_Unix (reset b) >? Time_Unix now).
  - intros Heq. injection Heq as _ _ <-. auto.
  - destruct (env_do env (PTTL (name b)) w1) as [[ttl [err |]] w2].
    + intros Heq. injection Heq as _ _ <-. auto.
    + destruct (env_now env w2) as [now' w3].
      destruct ttl; intros Heq; injection Heq as _ _ <-; auto.
Qed.

(** The projection of a counter onto the remaining quota stays within the
    capacity, whatever the counter. *)
Lemma projection_within (capacity counter : Z) :
  is_uint capacity ->
  within_capacity capacity (uint_sub capacity (min (uint counter) capacity)).
Proof.
  intros Hc. pose proof (uint_is_uint counter) as Hu.
  unfold within_capacity, min, is_uint in *.
  destruct (Z.ltb_spec (uint counter) capacity); rewrite uint_sub_small by lia; lia.
Qed.

Lemma remaining_read_within (capacity quota : Z) (count : Reply) :
  is_uint capacity ->
  remaining_read capacity count = Some quota ->
  within_capacity capacity quota.
Proof.
  intros Hc. unfold remaining_read.
  destruct count as [| arr | n | st]; try discriminate.
  - intros Heq. injection Heq as <-. unfold within_capacity, is_uint in *. lia.
  - destruct (byteArrayToUint arr) as [num [err |]]; [discriminate |].
    intros Heq. injection Heq as <-. apply projection_within. exact Hc.
Qed.

Lemma Add_checked_sound (b b' : bucket) (amount : Z) r (w w' : W) (log : list Cmd) :
  redis_sound b ->
  run env (Add_checked b amount) w = (Done (b', r), w', log) ->
  redis_sound b'.
Proof.
  intros [Hc Hr]. rewrite run_Add_checked.
  destruct (amount >? remaining b).
  - destruct (run env (updateOldReset b) w) as [[[[b1 e] | msg] w1] log1] eqn:Hupd;
      [| discriminate].
    apply updateOldReset_frame in Hupd as (_ & Hc1 & Hr1 & _).
    intros Heq. injection Heq as <- _ _ _.
    unfold redis_sound. rewrite Hc1, Hr1. split; assumption.
  - destruct (env_do env (INCRBY (name b) amount) w) as [[count [err |]] w1].
    + intros Heq. injection Heq as <- _ _ _. split; assumption.
    + destruct count as [| arr | n | st]; try discriminate.
      destruct (uint n =? amount).
      * destruct (env_do env (PEXPIRE (name b) _) w1) as [[reply [err |]] w2].
        -- intros Heq. injection Heq as <- _ _ _. split; assumption.
        -- destruct (run env (updateOldReset b) w2) as [[[[b1 e] | msg] w3] log1] eqn:Hupd;
             [| discriminate].
           apply updateOldReset_frame in Hupd as (_ & Hc1 & _).
           intros Heq. injection Heq as <- _ _ _.
           unfold redis_sound. cbn. rewrite Hc1.
           split; [exact Hc | apply projection_within; exact Hc].
      * destruct (run env (updateOldReset b) w1) as [[[[b1 e] | msg] w3] log1] eqn:Hupd;
          [| discriminate].
        apply updateOldReset_frame in Hupd as (_ & Hc1 & _).
        intros Heq. injection Heq as <- _ _ _.
        unfold redis_sound. cbn. rewrite Hc1.
        split; [exact Hc | apply projection_within; exact Hc].
Qed.

Lemma redis_Add_sound (b b' : bucket) (amount : Z) r (w w' : W) (log : list Cmd) :
  redis_sound b ->
  run env (Add b amount) w = (Done (b', r), w', log) ->
  redis_sound b'.
Proof.
  intros Hb. rewrite run_Add.
  destruct (env_do env (GET (name b)) w) as [[count [err |]] w1].
  - intros Heq. injection Heq as <- _ _ _. exact Hb.
  - destruct (remaining_read (capacity b) count) as [quota |] eqn:Hread.
    + destruct (run env (Add_checked (set_remaining b quota) amount) w1)
        as [[out w2] log2] eqn:Hrun.
      intros Heq. injection Heq as -> _ _.
      eapply Add_checked_sound; [| exact Hrun].
      destruct Hb as [Hc _]. split; [exact Hc |].
      cbn. eapply remaining_read_within; eassumption.
    + destruct count; try discriminate.
      intros Heq. injection Heq as <- _ _ _. exact Hb.
Qed.

Lemma redis_Create_sound (s : Storage) (nm : string) (c : Z) (r : Duration)
    (b : bucket) e (w w' : W) (log : list Cmd) :
  is_uint c ->
  run env (Create s nm c r) w = (Done (Some b, e), w', log) ->
  redis_sound b.
Proof.
  intros Hc. rewrite run_Create.
  destruct (env_do env (GET nm) w) as [[count [err |]] w1]; [discriminate |].
  destruct count as [| arr | n | st]; try discriminate.
  - destruct (env_now env w1) as [now w2].
    intros Heq. injection Heq as <- _ _ _.
    split; [exact Hc |]. unfold within_capacity, is_uint in *. cbn. lia.
  - destruct (byteArrayToUint arr) as [num [err |]] eqn:Hparse; [discriminate |].
    destruct (env_do env (PTTL nm) w1) as [[ttl [err |]] w2]; [discriminate |].
    destruct (env_now env w2) as [now w3].
    destruct ttl; try discriminate.
    intros Heq. injection Heq as <- _ _ _.
    split; [exact Hc |]. cbn.
    assert (Hnum : is_uint num).
    { unfold byteArrayToUint in Hparse. destruct (Atoi arr) as [v [err |]];
        [discriminate |]. injection Hparse as <-. apply uint_is_uint. }
    pose proof (projection_within c num Hc) as Hp.
    rewrite (uint_small num Hnum) in Hp.
    unfold within_capacity, min, is_uint in *.
    destruct (Z.ltb_spec c num); destruct (Z.ltb_spec num c);
      rewrite uint_sub_small in * by lia; lia.
Qed.

End RedisRuns.

Lemma redis_reachable_sound (b : redis.bucket) : redis_reachable b -> redis_sound b.
Proof.
  induction 1 as
      [ W env w s nm c r b e w' log Hc Hrun
      | W env w b amount b' r w' log Hb IH Ha Hrun
      | W env w b b' e w' log Hb IH Hrun ].
  - eapply redis_Create_sound; eassumption.
  - eapply redis_Add_sound; eassumption.
  - apply updateOldReset_frame in Hrun as (_ & Hc1 & Hr1 & _).
    destruct IH as [Hc Hr]. unfold redis_sound. rewrite Hc1, Hr1. split; assumption.
Qed.


(* ================================================================== *)
(** * The memory backend *)
(* ================================================================== *)

Section MemoryClaims.

Import memory scenario.

(** C1 (as amended). The window of [Add] rolls forward exactly when the
    clock is strictly after [reset]: the consume attempt then starts from
    [remaining = capacity] and [reset = now + rate].  When the clock is at or
    before [reset], the roll-over step changes neither.  The readings
    [clk 0], [clk 1], [clk 2] are the calls of [time.Now()] on lines 32, 33
    and 34; on a clock that stands still they are one [now]. *)
Theorem Add_rolls_over_after_reset (clk : Clock) (b : bucket) (amount : Z) :
  (reset b < clk 1%nat ->
   exec (Add b amount) clk =
   (Done (consume (mkBucket (capacity b) (capacity b)
                     (Time_Add (clk 2%nat) (rate b)) (rate b) (clk 0%nat)) amount),
    later 3 clk))
  /\
  (clk 1%nat <= reset b ->
   exec (Add b amount) clk =
   (Done (consume (mkBucket (capacity b) (remaining b) (reset b) (rate b)
                     (clk 0%nat)) amount),
    later 2 clk)).
Proof.
  rewrite exec_Add. unfold entering, Time_After.
  split; intros H; destruct (Z.ltb_spec (reset b) (clk 1%nat)); (reflexivity || lia).
Qed.

Lemma Add_rolls_over_after_reset_witness :
  exec (Add (mkBucket 10 3 1000 1000 0) 4) (frozen 1001)
    = (Done (consume (mkBucket 10 10 2001 1000 1001) 4), later 3 (frozen 1001))
  /\
  exec (Add (mkBucket 10 3 1000 1000 0) 2) (frozen 1000)
    = (Done (consume (mkBucket 10 3 1000 1000 1000) 2), later 2 (frozen 1000)).
Proof.
  split.
  - apply (proj1 (Add_rolls_over_after_reset (frozen 1001) (mkBucket 10 3 1000 1000 0) 4)).
    vm_compute. reflexivity.
  - apply (proj2 (Add_rolls_over_after_reset (frozen 1000) (mkBucket 10 3 1000 1000 0) 2)).
    vm_compute. discriminate.
Defined.

(** C1 as stated fails at [now = reset]: [After] is strict, so the window
    does not roll and [Add 2] takes from the 3 that remain. *)
Lemma Add_at_reset_does_not_roll_over :
  let b := mkBucket 10 3 1000 1000 0 in
  let now := 1000 in
  now >= reset b /\
  fst (exec (Add b 2) (frozen now))
    = Done (mkBucket 10 1 1000 1000 1000, (leakybucket.mkBucketState 10 1 1000, None)) /\
  fst (exec (Add b 2) (frozen now))
    <> Done (consume (mkBucket 10 10 (Time_Add now 1000) 1000 now) 2).
Proof.
  vm_compute. split; [discriminate | split; [reflexivity | discriminate]].
Qed.

(** C3. A series of [Add] calls inside one window leaves, after each call,
    [remaining] at or above zero and [remaining] plus the amounts accepted so
    far in the window equal to [capacity].  The window is the one the bucket
    is in, still full and with no clock reading past [reset]; or the one the
    first call of the series opens by rolling over, with no later reading
    past the new [reset].  [firstn n] is the series cut after its first [n]
    calls. *)
Theorem accepted_amounts_add_up (clk : Clock) (b : bucket) (amounts : list Z)
    (n : nat) :
  is_uint (capacity b) ->
  Forall is_uint amounts ->
  (remaining b = capacity b /\ (forall i, clk i <= reset b)) \/
  (reset b < clk 1%nat /\ (0 < n)%nat /\ amounts <> [] /\
   (forall i, clk (3 + i)%nat <= Time_Add (clk 2%nat) (rate b))) ->
  exists (b' : bucket) (accepted : list Z) (clk' : Clock),
    exec (Adds b (firstn n amounts)) clk = (Done (b', accepted), clk') /\
    0 <= remaining b' /\
    remaining b' + sum_of accepted = capacity b'.
Proof.
  intros Hcap Hamounts [[Hfull Hclk] | (Hroll & Hn & Hne & Hclk)].
  - destruct (Adds_inside_window (firstn n amounts) b clk)
      as (b' & accepted & clk' & Hrun & Hc & _ & _ & H0 & Hsum).
    + unfold is_uint in Hcap. lia.
    + apply Forall_take. exact Hamounts.
    + exact Hclk.
    + exists b', accepted, clk'. repeat split; [exact Hrun | exact H0 | lia].
  - destruct amounts as [| amount amounts]; [contradiction |].
    destruct n as [| n]; [lia |].
    apply Forall_cons in Hamounts as [Hamount Hamounts].
    cbn [firstn Adds]. rewrite exec_bind, exec_Add. unfold entering, Time_After.
    destruct (Z.ltb_spec (reset b) (clk 1%nat)) as [_ | Hno]; [| lia].
    set (opened := mkBucket (capacity b) (capacity b) (Time_Add (clk 2%nat) (rate b))
                     (rate b) (clk 0%nat)).
    assert (Hopened :
      exists b1 st err,
        consume opened amount = (b1, (st, err)) /\
        capacity b1 = capacity b /\ reset b1 = Time_Add (clk 2%nat) (rate b) /\
        0 <= remaining b1 < 2 ^ 64 /\
        remaining b1 + sum_of (match err with None => [amount] | Some _ => [] end)
          = capacity b).
    { unfold consume, is_uint in *. cbn [remaining capacity opened].
      destruct (Z.gtb_spec amount (capacity b)) as [Hfull | Hfits].
      - eexists _, _, _. split; [reflexivity |]. cbn. lia.
      - eexists _, _, _. split; [reflexivity |].
        rewrite uint_sub_small by lia. cbn. lia. }
    destruct Hopened as (b1 & st & err & -> & Hc1 & Hr1 & Hrem1 & Hsum1).
    cbv beta iota.
    destruct (Adds_inside_window (firstn n amounts) b1 (later 3 clk))
      as (b' & accepted & clk' & Hrun & Hc & _ & _ & H0 & Hsum).
    + exact Hrem1.
    + apply Forall_take. exact Hamounts.
    + intros i. rewrite Hr1. apply Hclk.
    + rewrite exec_bind, Hrun.
      eexists b', _, clk'. split; [reflexivity |]. split; [exact H0 |].
      rewrite Hc, Hc1. unfold sum_of in *.
      destruct err; cbn [foldr] in *; lia.
Qed.

Lemma accepted_amounts_add_up_witness :
  (exists (b' : bucket) (accepted : list Z) (clk' : Clock),
      exec (Adds (mkBucket 10 10 1000 1000 0) (firstn 3 [4; 7; 3; 9])) (frozen 5)
        = (Done (b', accepted), clk') /\
      0 <= remaining b' /\
      remaining b' + sum_of accepted = capacity b')
  /\
  (exists (b' : bucket) (accepted : list Z) (clk' : Clock),
      exec (Adds (mkBucket 10 3 1000 1000 0) (firstn 3 [4; 7; 3; 9])) (frozen 1500)
        = (Done (b', accepted), clk') /\
      0 <= remaining b' /\
      remaining b' + sum_of accepted = capacity b').
Proof.
  split.
  - apply (accepted_amounts_add_up (frozen 5) (mkBucket 10 10 1000 1000 0)
             [4; 7; 3; 9] 3).
    + vm_compute. split; [discriminate | reflexivity].
    + repeat constructor; vm_compute; try discriminate; reflexivity.
    + left. split; [reflexivity |]. intros i. vm_compute. discriminate.
  - apply (accepted_amounts_add_up (frozen 1500) (mkBucket 10 3 1000 1000 0)
             [4; 7; 3; 9] 3).
    + vm_compute. split; [discriminate | reflexivity].
    + repeat constructor; vm_compute; try discriminate; reflexivity.
    + right. split; [vm_compute; reflexivity |]. split; [lia |].
      split; [discriminate |]. intros i. vm_compute. discriminate.
Defined.

(** C7. [AddWithTime] with a time [t] before [reset - rate] leaves [reset] at
    [t + rate]; with [t] from [reset - rate] up to [reset] it leaves [reset]
    as it was.  [reset - rate] is computed as [b.reset.Add(-1 * b.rate)], which
    is the exact difference for every rate but the least [int64]. *)
Theorem AddWithTime_realigns_window (clk : Clock) (b : bucket) (amount : Z)
    (t : Time) :
  exists (b' : bucket) (r : leakybucket.BucketState * option error),
    exec (AddWithTime b amount t) clk = (Done (b', r), later 1 clk) /\
    leakybucket.Reset (fst r) = reset b' /\
    (t < Time_Add (reset b) (int64_mul (-1) (rate b)) ->
     reset b' = Time_Add t (rate b)) /\
    (Time_Add (reset b) (int64_mul (-1) (rate b)) <= t -> t <= reset b ->
     reset b' = reset b) /\
    (- 2 ^ 63 < rate b < 2 ^ 63 ->
     Time_Add (reset b) (int64_mul (-1) (rate b)) = reset b - rate b).
Proof.
  rewrite AddWithTime_steps.
  set (b1 := realign _ _).
  exists (fst (consume b1 amount)), (snd (consume b1 amount)).
  split; [destruct (consume b1 amount); reflexivity |].
  split; [rewrite consume_snapshot; reflexivity |].
  rewrite consume_reset. subst b1.
  unfold realign, rollover_at, Time_Before, Time_After, Time_Add. simpl.
  split; [| split].
  - intros H.
    destruct (Z.ltb_spec (reset b) t) as [Ha | Ha]; simpl.
    + case_match; reflexivity.
    + destruct (Z.ltb_spec t (reset b + int64_mul (-1) (rate b))); [reflexivity | lia].
  - intros H1 H2.
    destruct (Z.ltb_spec (reset b) t) as [Ha | Ha]; [lia |]; simpl.
    destruct (Z.ltb_spec t (reset b + int64_mul (-1) (rate b))); [lia | reflexivity].
  - intros H. rewrite int64_negate by exact H. lia.
Qed.

Lemma AddWithTime_realigns_window_witness :
  (exists b' r,
      exec (AddWithTime (mkBucket 10 3 5000 1000 0) 1 3999) (frozen 4500)
        = (Done (b', r), later 1 (frozen 4500)) /\
      reset b' = 4999)
  /\
  (exists b' r,
      exec (AddWithTime (mkBucket 10 3 5000 1000 0) 1 4000) (frozen 4500)
        = (Done (b', r), later 1 (frozen 4500)) /\
      reset b' = 5000)
  /\
  Time_Add 5000 (int64_mul (-1) 1000) = 5000 - 1000.
Proof.
  split; [| split].
  - destruct (AddWithTime_realigns_window (frozen 4500) (mkBucket 10 3 5000 1000 0) 1 3999)
      as (b' & r & Hrun & _ & Hbefore & _ & _).
    exists b', r. split; [exact Hrun |].
    apply Hbefore. vm_compute. reflexivity.
  - destruct (AddWithTime_realigns_window (frozen 4500) (mkBucket 10 3 5000 1000 0) 1 4000)
      as (b' & r & Hrun & _ & _ & Hinside & _).
    exists b', r. split; [exact Hrun |].
    apply Hinside; vm_compute; discriminate.
  - destruct (AddWithTime_realigns_window (frozen 4500) (mkBucket 10 3 5000 1000 0) 1 4000)
      as (b' & r & _ & _ & _ & _ & Hexact).
    apply Hexact. vm_compute. split; reflexivity.
Defined.

(** C10. Every [Add] and every [AddWithTime], accepted or refused, leaves
    [updated] at the time of the call; called through the pointer the
    [Storage] holds, it thereby keeps the entry through any [Clean] that runs
    within the hour that follows. *)
Theorem every_call_counts_as_activity (s : Storage) (h : Heap) (name : string)
    (p : ptr) (amount : Z) (t : Time) (clk : Clock) :
  buckets s !! name = Some p ->
  (forall nm q, buckets s !! nm = Some q -> is_Some (h !! q)) ->
  touched_and_kept s h name p clk (fun b => Add b amount) /\
  touched_and_kept s h name p clk (fun b => AddWithTime b amount t).
Proof.
  intros Hname Hlive. split.
  - apply call_defers_eviction; [| exact Hname | exact Hlive].
    intros b c. apply Add_returns.
  - apply call_defers_eviction; [| exact Hname | exact Hlive].
    intros b c. apply AddWithTime_returns.
Qed.

Lemma every_call_counts_as_activity_witness :
  touched_and_kept idle_storage idle_heap "a" 0 (frozen (2 * Hour))
    (fun b => Add b 1)
  /\
  touched_and_kept idle_storage idle_heap "a" 0 (frozen (2 * Hour))
    (fun b => AddWithTime b 1 (2 * Hour)).
Proof.
  apply (every_call_counts_as_activity idle_storage idle_heap "a" 0 1 (2 * Hour)
           (frozen (2 * Hour))).
  - vm_compute. reflexivity.
  - intros nm q Hq. unfold idle_storage in Hq. cbn [buckets] in Hq.
    apply lookup_singleton_Some in Hq as [_ <-].
    vm_compute. eexists. reflexivity.
Defined.

Example refused_Add_keeps_the_entry :
  let half_past_two := frozen (2 * Hour + 30 * 60 * Second) in
  (* the bucket was last touched at 0; a refused Add at two o'clock ... *)
  match fst (exec (through 0 idle_heap (fun b => Add b 1)) (frozen (2 * Hour))) with
  | Done (h1, (_, err)) =>
      err = Some ErrorFull /\
      (* ... keeps it through the sweep at half past two, *)
      match fst (exec (Clean idle_storage "" h1) half_past_two) with
      | Done s1 => buckets s1 !! "a" = Some 0%nat
      | Panicked _ => False
      end
  | Panicked _ => False
  end
  /\
  (* which would otherwise have removed it. *)
  match fst (exec (Clean idle_storage "" idle_heap) half_past_two) with
  | Done s1 => buckets s1 !! "a" = None
  | Panicked _ => False
  end.
Proof. vm_compute. repeat split. Qed.

(** The scenario of a bucket of capacity 10 refilled every second: 4 are
    taken, 7 more are refused and change nothing, and once the second is over
    the window is full again. *)
Example ten_per_second :
  let b0 := mkBucket 10 10 Second Second 0 in
  match fst (exec (Add b0 4) (frozen 0)) with
  | Done (b1, r1) =>
      r1 = (leakybucket.mkBucketState 10 6 Second, None) /\
      match fst (exec (Add b1 7) (frozen 1)) with
      | Done (b2, r2) =>
          r2 = (leakybucket.mkBucketState 10 6 Second, Some ErrorFull) /\
          snapshot b2 = leakybucket.mkBucketState 10 6 Second /\
          match fst (exec (Add b2 3) (frozen (Second + 1))) with
          | Done (_, r3) =>
              r3 = (leakybucket.mkBucketState 10 7 (2 * Second + 1), None)
          | Panicked _ => False
          end
      | Panicked _ => False
      end
  | Panicked _ => False
  end.
Proof. vm_compute. repeat split. Qed.

End MemoryClaims.

(* ================================================================== *)
(** * Both backends *)
(* ================================================================== *)

Section Claims.

Import leakybucket scenario.







(** C8. A stored value that [strconv.Atoi] rejects makes [Add] and [Create]
    return that error right after the GET: nothing else is sent, [Add] leaves
    the bucket as it was and [Create] returns no bucket. *)
Theorem malformed_counter_is_an_error
    (W : Type) (env : Env W) (w w1 : W) (b : redis.bucket) (amount : Z)
    (s : redis.Storage) (nm : string) (c : Z) (r : Duration)
    (arr : list byte) (e : error) :
  snd (Atoi arr) = Some e ->
  (env_do env (GET (redis.name b)) w = ((RBulk arr, None), w1) ->
   run env (redis.Add b amount) w
     = (Done (b, (redis.State b, Some e)), w1, [GET (redis.name b)]))
  /\
  (env_do env (GET nm) w = ((RBulk arr, None), w1) ->
   run env (redis.Create s nm c r) w = (Done (None, Some e), w1, [GET nm])).
Proof.
  intros Hbad.
  assert (Hparse : redis.byteArrayToUint arr = (0, Some e)).
  { unfold redis.byteArrayToUint. destruct (Atoi arr) as [v [err |]]; cbn in Hbad.
    - injection Hbad as ->. reflexivity.
    - discriminate. }
  split; intros Hget.
  - rewrite run_Add, Hget. cbn [redis.remaining_read]. rewrite Hparse. reflexivity.
  - rewrite run_Create, Hget, Hparse. reflexivity.
Qed.

Lemma malformed_counter_is_an_error_witness :
  run server.env (redis.Add hourly 1) (holding ["1"; "_"; "2"]%byte)
    = (Done (hourly, (redis.State hourly, Some NumError)),
       holding ["1"; "_"; "2"]%byte, [GET "k"])
  /\
  run server.env (redis.Create redis.mkStorage "k" 10 Hour) (holding ["1"; "_"; "2"]%byte)
    = (Done (None, Some NumError), holding ["1"; "_"; "2"]%byte, [GET "k"]).
Proof.
  destruct (malformed_counter_is_an_error server.World server.env
              (holding ["1"; "_"; "2"]%byte) (holding ["1"; "_"; "2"]%byte)
              hourly 1 redis.mkStorage "k" 10 Hour
              ["1"; "_"; "2"]%byte NumError) as [HAdd HCreate].
  - vm_compute. reflexivity.
  - split; [apply HAdd | apply HCreate]; vm_compute; reflexivity.
Defined.

Section Success.

Context {W : Type} (env : Env W).

(** What [updateOldReset] does to [reset]. *)
Lemma updateOldReset_reset (b b' : redis.bucket)
    (e : option error) (w w' : W) (log : list Cmd) :
  run env (redis.updateOldReset b) w = (Done (b', e), w', log) ->
  let '(now, w1) := env_now env w in
  if Time_Unix (redis.reset b) >? Time_Unix now then
    redis.reset b' = redis.reset b /\ log = []
  else
    log = [PTTL (redis.name b)] /\
    let '((ttl, err), w2) := env_do env (PTTL (redis.name b)) w1 in
    match err, ttl with
    | Some _, _ => redis.reset b' = redis.reset b
    | None, RInt ttl =>
        redis.reset b'
        = Time_Add (fst (env_now env w2)) (int64_mul ttl redis.millisecond)
    | None, _ => False
    end.
Proof.
  rewrite run_updateOldReset.
  destruct (env_now env w) as [now w1].
  destruct (Time_Unix (redis.reset b) >? Time_Unix now).
  - intros Heq. injection Heq as <- _ _ <-. auto.
  - destruct (env_do env (PTTL (redis.name b)) w1) as [[ttl [err |]] w2].
    + intros Heq. injection Heq as <- _ _ <-. auto.
    + destruct (env_now env w2) as [now' w3].
      destruct ttl; intros Heq; try discriminate.
      injection Heq as <- _ _ <-. auto.
Qed.

(** A call that returns no error went through INCRBY and ended with
    [updateOldReset]. *)
Lemma Add_checked_success (b b' : redis.bucket) (amount : Z) (st : BucketState)
    (w w' : W) (log : list Cmd) :
  run env (redis.Add_checked b amount) w = (Done (b', (st, None)), w', log) ->
  exists (w0 : W) (sent : list Cmd) (b1 : redis.bucket) (e : option error)
         (logu : list Cmd),
    run env (redis.updateOldReset b) w0 = (Done (b1, e), w', logu) /\
    log = INCRBY (redis.name b) amount :: sent ++ logu /\
    (sent = [] \/
     sent = [PEXPIRE (redis.name b) (int64_div (redis.rate b) redis.millisecond)]) /\
    Reset st = redis.reset b1 /\ redis.reset b' = redis.reset b1.
Proof.
  rewrite run_Add_checked. unfold Nanoseconds.
  destruct (amount >? redis.remaining b).
  { destruct (run env (redis.updateOldReset b) w) as [[[[b1 e] | msg] w3] logu];
      intros Heq; discriminate. }
  destruct (env_do env (INCRBY (redis.name b) amount) w) as [[reply [err |]] wb];
    [intros Heq; discriminate |].
  destruct reply as [| arr | c | s]; try (intros Heq; discriminate).
  destruct (uint c =? amount).
  - destruct (env_do env (PEXPIRE (redis.name b) _) wb) as [[reply [err |]] wc];
      [intros Heq; discriminate |].
    destruct (run env (redis.updateOldReset b) wc) as [[[[b1 e] | msg] w3] logu] eqn:Hupd;
      [| intros Heq; discriminate].
    intros Heq. injection Heq as <- <- <- <-.
    exists wc, [PEXPIRE (redis.name b) (int64_div (redis.rate b) redis.millisecond)],
      b1, e, logu.
    auto 10.
  - destruct (run env (redis.updateOldReset b) wb) as [[[[b1 e] | msg] w3] logu] eqn:Hupd;
      [| intros Heq; discriminate].
    intros Heq. injection Heq as <- <- <- <-.
    exists wb, [], b1, e, logu. auto 10.
Qed.

Lemma Add_success (b b' : redis.bucket) (amount : Z) (st : BucketState)
    (w w' : W) (log : list Cmd) :
  run env (redis.Add b amount) w = (Done (b', (st, None)), w', log) ->
  exists (quota : Z) (w1 : W) (log1 : list Cmd),
    run env (redis.Add_checked (redis.set_remaining b quota) amount) w1
      = (Done (b', (st, None)), w', log1) /\
    log = GET (redis.name b) :: log1.
Proof.
  rewrite run_Add.
  destruct (env_do env (GET (redis.name b)) w) as [[count [err |]] wa];
    [intros Heq; discriminate |].
  destruct (redis.remaining_read (redis.capacity b) count) as [quota |] eqn:Hread.
  - destruct (run env (redis.Add_checked (redis.set_remaining b quota) amount) wa)
      as [[out w2] log2] eqn:Hrun.
    intros Heq. injection Heq as -> -> <-.
    exists quota, wa, log2. split; [exact Hrun | reflexivity].
  - destruct count as [| arr | n | s]; intros Heq; try discriminate.
    cbn [redis.remaining_read] in Hread.
    destruct (redis.byteArrayToUint arr) as [num [err |]]; discriminate.
Qed.

End Success.

(** C9 (as amended). A successful [Add] ends with [updateOldReset] (line 94)
    and returns the [reset] that call leaves.  [updateOldReset] reconciles
    only a reset that is no longer ahead: when the Unix second of the cached
    [reset] is later than that of the clock, nothing is asked and the cached
    [reset] is returned; otherwise PTTL is asked and, when it answers [ttl],
    [reset] becomes the time it then is plus [ttl] milliseconds. *)
Theorem successful_Add_reconciles_old_reset
    (W : Type) (env : Env W) (w w' : W) (b b' : redis.bucket) (amount : Z)
    (st : BucketState) (log : list Cmd) :
  run env (redis.Add b amount) w = (Done (b', (st, None)), w', log) ->
  exists (w0 : W) (log0 : list Cmd) (b0 b1 : redis.bucket) (e : option error)
         (logu : list Cmd),
    redis.name b0 = redis.name b /\ redis.reset b0 = redis.reset b /\
    run env (redis.updateOldReset b0) w0 = (Done (b1, e), w', logu) /\
    log = log0 ++ logu /\
    (log0 = [GET (redis.name b); INCRBY (redis.name b) amount] \/
     log0 = [GET (redis.name b); INCRBY (redis.name b) amount;
             PEXPIRE (redis.name b) (int64_div (redis.rate b) redis.millisecond)]) /\
    Reset st = redis.reset b1 /\
    let '(now, w1) := env_now env w0 in
    if Time_Unix (redis.reset b) >? Time_Unix now then
      redis.reset b1 = redis.reset b /\ logu = []
    else
      logu = [PTTL (redis.name b)] /\
      let '((ttl, err), w2) := env_do env (PTTL (redis.name b)) w1 in
      match err, ttl with
      | Some _, _ => redis.reset b1 = redis.reset b
      | None, RInt ttl =>
          redis.reset b1
          = Time_Add (fst (env_now env w2)) (int64_mul ttl redis.millisecond)
      | None, _ => False
      end.
Proof.
  intros Hrun.
  apply Add_success in Hrun as (quota & w1 & log1 & Hrun & ->).
  apply Add_checked_success in Hrun as (w0 & sent & b1 & e & logu & Hupd & -> & Hsent & Hst & _).
  cbn [redis.name redis.rate redis.set_remaining] in *.
  exists w0, (GET (redis.name b) :: INCRBY (redis.name b) amount :: sent),
    (redis.set_remaining b quota), b1, e, logu.
  split; [reflexivity |]. split; [reflexivity |]. split; [exact Hupd |].
  split; [reflexivity |].
  split; [destruct Hsent as [-> | ->]; auto |].
  split; [exact Hst |].
  apply (updateOldReset_reset env _ _ _ _ _ _ Hupd).
Qed.

Lemma successful_Add_reconciles_old_reset_witness :
  exists (w0 : server.World) (b0 b1 : redis.bucket) (e : option error)
         (logu : list Cmd),
    run server.env (redis.updateOldReset b0) w0
      = (Done (b1, e), snd (fst (run server.env (redis.Add hourly 4) two_hours_on)), logu) /\
    redis.reset b0 = Hour /\
    redis.reset b1 = 3 * Hour.
Proof.
  destruct (successful_Add_reconciles_old_reset server.World server.env
              two_hours_on (snd (fst (run server.env (redis.Add hourly 4) two_hours_on)))
              hourly (redis.mkBucket "k" 10 6 (3 * Hour) Hour) 4
              (mkBucketState 10 6 (3 * Hour))
              [GET "k"; INCRBY "k" 4; PEXPIRE "k" 3600000; PTTL "k"])
    as (w0 & log0 & b0 & b1 & e & logu & _ & Hb0 & Hupd & _ & _ & Hst & _).
  - vm_compute. reflexivity.
  - exists w0, b0, b1, e, logu. split; [exact Hupd |]. split; [exact Hb0 |].
    symmetry. exact Hst.
Defined.

(** C9 as stated fails for a bucket whose cached [reset] is still ahead: ten
    seconds after [Create "k" 10 Hour], [Add 4] succeeds, sets the key to
    expire an hour from then and sends no PTTL; the state it returns keeps
    the cached [reset] of one hour, ten seconds short of now plus the key's
    time-to-live. *)
Lemma fresh_reset_is_not_reconciled :
  let '(out, w', log) := run server.env (redis.Add hourly 4) ten_past in
  match out with
  | Done (b', (st, err)) =>
      err = None /\
      log = [GET "k"; INCRBY "k" 4; PEXPIRE "k" 3600000] /\
      server.clock w' = 10 * Second /\
      fst (server.do (PTTL "k") w') = (RInt 3600000, None) /\
      Reset st = Hour /\
      Reset st <> Time_Add (server.clock w') (int64_mul 3600000 redis.millisecond)
  | Panicked _ => False
  end.
Proof. vm_compute. repeat split; discriminate. Qed.

(** [Create] under a name the map knows gives the pointer the map holds and
    touches nothing: not the map, not a bucket, not the clock. *)
Lemma memory_Create_known (s : memory.Storage) (h : memory.Heap) (name : string)
    (c : Z) (r : Duration) (p : memory.ptr) (clk : Clock) :
  memory.buckets s !! name = Some p ->
  exec (memory.Create s name c r h) clk = (Done ((s, h), (p, None)), clk).
Proof.
  intros Hname. unfold memory.Create. rewrite Hname. reflexivity.
Qed.

(** The simulated server keeps its store through GET and PTTL. *)
Lemma server_reads_keep_db (k : string) (w : server.World) :
  snd (server.do (GET k) w) = w /\ snd (server.do (PTTL k) w) = w.
Proof.
  unfold server.do. destruct (server.up w); [| split; reflexivity].
  split; repeat case_match; reflexivity.
Qed.

(** So [Create], which sends nothing else, leaves the store as it was. *)
Lemma server_Create_keeps_db (rs : redis.Storage) (name : string) (c : Z)
    (r : Duration) (w : server.World) :
  server.db (snd (fst (run server.env (redis.Create rs name c r) w))) = server.db w.
Proof.
  rewrite run_Create.
  destruct (server_reads_keep_db name w) as [Hget _].
  change (env_do server.env) with server.do. change (env_now server.env) with server.now.
  destruct (server.do (GET name) w) as [[count [err |]] w1] eqn:Hdo;
    cbn [snd] in Hget; subst w1; [reflexivity |].
  destruct count as [| arr | n | st]; try reflexivity.
  destruct (redis.byteArrayToUint arr) as [num [err |]]; [reflexivity |].
  destruct (server_reads_keep_db name w) as [_ Hpttl].
  destruct (server.do (PTTL name) w) as [[ttl [err |]] w2] eqn:Hdo2;
    cbn [snd] in Hpttl; subst w2; [reflexivity |].
  destruct ttl; reflexivity.
Qed.

(** C6 (as amended). In the memory backend [Create] under a name the map
    knows hands back the pointer the map holds and leaves the [Storage] and
    the whole heap as they were, reading not even the clock: whatever [Add]
    and [AddWithTime] have made of the bucket since it was created, its
    capacity, remaining, reset and rate stay, and the new capacity and rate
    are not applied.  After any [Create] the map knows the name, so this is
    what every later [Create] under it does, on whatever the heap has become.
    In the redis backend [Create] keeps no table: a repeated call sends only
    GET, and PTTL exactly when the key exists and holds a number, so the
    counter and its time-to-live stay as they are (the store of the simulated
    server is left unchanged); the bucket it returns is a new one built from
    the arguments of that call, with [capacity] and [rate] as given and
    [remaining] projected from the counter onto that capacity. *)
Theorem Create_again
    (s : memory.Storage) (h : memory.Heap) (clk : Clock)
    (W : Type) (env : Env W) (w : W) (rs : redis.Storage)
    (name : string) (c c' : Z) (r r' : Duration) :
  (forall p, memory.buckets s !! name = Some p ->
     exec (memory.Create s name c' r' h) clk = (Done ((s, h), (p, None)), clk))
  /\
  (exists s1 h1 p clk1,
      exec (memory.Create s name c r h) clk = (Done ((s1, h1), (p, None)), clk1) /\
      memory.buckets s1 !! name = Some p /\
      forall h2 clk2,
        exec (memory.Create s1 name c' r' h2) clk2
          = (Done ((s1, h2), (p, None)), clk2))
  /\
  (exists out w' log,
      run env (redis.Create rs name c' r') w = (out, w', log) /\
      (log = [GET name] \/ log = [GET name; PTTL name]) /\
      (In (PTTL name) log <->
       exists arr n, fst (env_do env (GET name) w) = (RBulk arr, None) /\
                     redis.byteArrayToUint arr = (n, None)) /\
      forall b e, out = Done (Some b, e) ->
        e = None /\
        redis.name b = name /\ redis.capacity b = c' /\ redis.rate b = r' /\
        match fst (fst (env_do env (GET name) w)) with
        | RNil => redis.remaining b = c'
        | RBulk arr =>
            redis.remaining b
            = uint_sub c' (redis.min c' (fst (redis.byteArrayToUint arr)))
        | _ => False
        end)
  /\
  (forall ws : server.World,
      server.db (snd (fst (run server.env (redis.Create rs name c' r') ws)))
      = server.db ws).
Proof.
  split; [| split; [| split]].
  - intros p Hname. apply memory_Create_known. exact Hname.
  - destruct (memory_Create_twice s h name c c' r r' clk)
      as (s1 & h1 & p & clk1 & Hfirst & Hname & _).
    exists s1, h1, p, clk1. split; [exact Hfirst |]. split; [exact Hname |].
    intros h2 clk2. apply memory_Create_known. exact Hname.
  - assert (Hnot : forall A B : Prop, ~ A -> ~ B -> (A <-> B)) by tauto.
    assert (Hnone : ~ In (PTTL name) [GET name]).
    { intros [Heq | []]. discriminate. }
    assert (Hsome : In (PTTL name) [GET name; PTTL name]) by (right; left; reflexivity).
    rewrite run_Create.
    destruct (env_do env (GET name) w) as [[count [err |]] w1]; cbn [fst].
    { eexists _, _, _. split; [reflexivity |]. split; [auto |].
      split; [apply Hnot; [exact Hnone | intros (arr & n & Heq & _); discriminate] |].
      intros b e Heq. discriminate. }
    destruct count as [| arr | n | st].
    + destruct (env_now env w1) as [now w2].
      eexists _, _, _. split; [reflexivity |]. split; [auto |].
      split; [apply Hnot; [exact Hnone | intros (arr & n & Heq & _); discriminate] |].
      intros b e Heq. injection Heq as <- <-. auto.
    + destruct (redis.byteArrayToUint arr) as [num [err |]] eqn:Hnum; cbn [fst].
      { eexists _, _, _. split; [reflexivity |]. split; [auto |].
        split; [apply Hnot; [exact Hnone |] |].
        - intros (arr' & n & Heq & Hparse). injection Heq as <-.
          rewrite Hnum in Hparse. discriminate.
        - intros b e Heq. discriminate. }
      assert (Hkey : exists arr' n, (RBulk arr, @None error) = (RBulk arr', None) /\
                                    redis.byteArrayToUint arr' = (n, None)).
      { exists arr, num. split; [reflexivity | exact Hnum]. }
      destruct (env_do env (PTTL name) w1) as [[ttl [err |]] w2].
      { eexists _, _, _. split; [reflexivity |]. split; [auto |].
        split; [split; [intros _; exact Hkey | intros _; exact Hsome] |].
        intros b e Heq. discriminate. }
      destruct (env_now env w2) as [now w3].
      destruct ttl; eexists _, _, _; (split; [reflexivity |]); (split; [auto |]);
        (split; [split; [intros _; exact Hkey | intros _; exact Hsome] |]);
        intros b e Heq; try discriminate.
      injection Heq as <- <-. auto.
    + eexists _, _, _. split; [reflexivity |]. split; [auto |].
      split; [apply Hnot; [exact Hnone | intros (arr & n' & Heq & _); discriminate] |].
      intros b e Heq. discriminate.
    + eexists _, _, _. split; [reflexivity |]. split; [auto |].
      split; [apply Hnot; [exact Hnone | intros (arr & n' & Heq & _); discriminate] |].
      intros b e Heq. discriminate.
  - intros ws. apply server_Create_keeps_db.
Qed.

Lemma Create_again_witness :
  exec (memory.Create (memory.mkStorage (<["k" := 0%nat]> ∅)) "k" 20 (2 * Hour)
          [memory.mkBucket 10 6 Hour Hour 0]) (frozen (10 * Second))
    = (Done ((memory.mkStorage (<["k" := 0%nat]> ∅),
              [memory.mkBucket 10 6 Hour Hour 0]), (0%nat, None)),
       frozen (10 * Second))
  /\
  (exists b,
      fst (fst (run server.env (redis.Create redis.mkStorage "k" 20 (2 * Hour))
                  (holding ["4"%byte])))
        = Done (Some b, None) /\
      redis.capacity b = 20 /\ redis.rate b = 2 * Hour /\ redis.remaining b = 16).
Proof.
  destruct (Create_again (memory.mkStorage (<["k" := 0%nat]> ∅))
              [memory.mkBucket 10 6 Hour Hour 0] (frozen (10 * Second))
              server.World server.env (holding ["4"%byte]) redis.mkStorage
              "k" 10 20 Hour (2 * Hour)) as (Hknown & _ & Hredis & _).
  split; [apply Hknown; vm_compute; reflexivity |].
  destruct Hredis as (out & w' & log & Hrun & _ & _ & Hbucket).
  exists (redis.mkBucket "k" 20 16 (-1 * Millisecond) (2 * Hour)).
  assert (Hout : out = Done (Some (redis.mkBucket "k" 20 16 (-1 * Millisecond) (2 * Hour)),
                             None)).
  { apply (f_equal (fun r => fst (fst r))) in Hrun. symmetry. exact Hrun. }
  split; [rewrite Hrun, Hout; reflexivity |].
  destruct (Hbucket _ _ Hout) as (_ & _ & Hcapacity & Hrate & Hremaining).
  split; [exact Hcapacity |]. split; [exact Hrate |]. exact Hremaining.
Defined.

(** C6 as stated fails for the redis backend: after [Create "k" 10 Hour] and
    an [Add 4] that puts the key in the store, [Create "k" 20 (2 * Hour)]
    returns a bucket of capacity 20 and rate two hours with 16 remaining,
    while the first bucket still has capacity 10 and rate one hour; the
    store is left as it was. *)
Lemma redis_Create_again_applies_its_arguments :
  let '(out1, w1, _) :=
    run server.env (redis.Create redis.mkStorage "k" 10 Hour) (server.fresh 0) in
  match out1 with
  | Done (Some b1, None) =>
      let '(out2, w2, _) := run server.env (redis.Add b1 4) w1 in
      match out2 with
      | Done (b1', (_, None)) =>
          let '(out3, w3, _) :=
            run server.env (redis.Create redis.mkStorage "k" 20 (2 * Hour)) w2 in
          out3 = Done (Some (redis.mkBucket "k" 20 16 Hour (2 * Hour)), None) /\
          b1' = redis.mkBucket "k" 10 6 Hour Hour /\
          server.db w3 = server.db w2
      | _ => False
      end
  | _ => False
  end.
Proof. vm_compute. repeat split. Qed.

(** C4. [0 <= remaining <= capacity] holds of every bucket in the heap of a
    memory [Storage] after any series of [Create], [Add], [AddWithTime] and
    [Clean] calls, and of every redis bucket made by [Create] and passed
    through [Add] and [updateOldReset] against any environment; and the
    projection [capacity - min(counter, capacity)] lies within
    [0 .. capacity] for every counter, also one past the capacity. *)
Theorem remaining_stays_within_capacity
    (s : memory.Storage) (h : memory.Heap) (rb : redis.bucket) :
  memory_reachable (s, h) ->
  redis_reachable rb ->
  (forall p b, h !! p = Some b ->
               within_capacity (memory.capacity b) (memory.remaining b)) /\
  within_capacity (redis.capacity rb) (redis.remaining rb) /\
  (forall capacity counter : Z,
      is_uint capacity ->
      within_capacity capacity
        (uint_sub capacity (redis.min (uint counter) capacity))).
Proof.
  intros Hmem Hredis. split; [| split].
  - intros p b Hp.
    apply memory_reachable_sound in Hmem.
    apply (Forall_lookup_1 _ _ _ _ Hmem Hp).
  - apply redis_reachable_sound in Hredis. apply Hredis.
  - intros capacity counter. apply projection_within.
Qed.

Lemma used_storage_reachable : memory_reachable (used_storage, used_heap).
Proof.
  unfold memory_reachable.
  eapply rtc_l.
  - apply (call_Create memory.New [] "a" 10 Second (frozen 0)
             used_storage [memory.mkBucket 10 10 Second Second 0]
             (0%nat, None) (later 2 (frozen 0))).
    + vm_compute. split; [discriminate | reflexivity].
    + reflexivity.
  - eapply rtc_l; [| apply rtc_refl].
    apply (call_Add used_storage [memory.mkBucket 10 10 Second Second 0] 0 4
             (frozen 0) used_heap
             (mkBucketState 10 6 Second, None) (later 2 (frozen 0))).
    + vm_compute. split; [discriminate | reflexivity].
    + reflexivity.
Qed.

Lemma hourly_reachable : redis_reachable hourly.
Proof.
  apply (made_by_Create server.World server.env (server.fresh 0) redis.mkStorage
           "k" 10 Hour hourly None (server.fresh 0) [GET "k"]).
  - vm_compute. split; [discriminate | reflexivity].
  - reflexivity.
Qed.

Lemma remaining_stays_within_capacity_witness :
  within_capacity 10 6 /\ within_capacity 10 10 /\
  within_capacity 10 (uint_sub 10 (redis.min (uint 25) 10)).
Proof.
  destruct (remaining_stays_within_capacity used_storage used_heap hourly
              used_storage_reachable hourly_reachable) as (Hmem & Hredis & Hproj).
  split; [| split].
  - apply (Hmem 0%nat (memory.mkBucket 10 6 Second Second 0)). reflexivity.
  - exact Hredis.
  - apply (Hproj 10 25). vm_compute. split; [discriminate | reflexivity].
Defined.

End Claims.

(* ================================================================== *)
(** * More about the memory backend *)
(* ================================================================== *)

Section MemoryMore.

Import memory.

(** X1. [Add] accepts exactly the amounts that fit what remains once the
    window is up to date; an accepted amount comes off [remaining] without
    wrapping and the state returned is the bucket as left. *)
Theorem Add_accepts_what_fits (clk : Clock) (b : bucket) (amount : Z) :
  0 <= amount ->
  0 <= remaining (entering b clk) < 2 ^ 64 ->
  exists b' st err clk',
    exec (Add b amount) clk = (Done (b', (st, err)), clk') /\
    st = snapshot b' /\
    (err = None <-> amount <= remaining (entering b clk)) /\
    (err = None -> remaining b' = remaining (entering b clk) - amount) /\
    (err <> None -> err = Some ErrorFull /\ b' = entering b clk).
Proof.
  intros Hamount Hrem. rewrite exec_Add. unfold consume.
  destruct (Z.gtb_spec amount (remaining (entering b clk))) as [Hfull | Hfits].
  - eexists _, _, _, _. split; [reflexivity |]. split; [reflexivity |].
    split; [split; [discriminate | lia] |]. split; [discriminate | auto].
  - eexists _, _, _, _. split; [reflexivity |]. split; [reflexivity |].
    split; [split; auto |]. split; [| intros H; contradiction].
    intros _. cbn. apply uint_sub_small; lia.
Qed.

Lemma Add_accepts_what_fits_witness :
  exists b' st err clk',
    exec (Add (mkBucket 10 3 1000 1000 0) 3) (frozen 5) = (Done (b', (st, err)), clk') /\
    st = snapshot b' /\
    (err = None <-> 3 <= remaining (entering (mkBucket 10 3 1000 1000 0) (frozen 5))) /\
    (err = None ->
     remaining b' = remaining (entering (mkBucket 10 3 1000 1000 0) (frozen 5)) - 3) /\
    (err <> None ->
     err = Some ErrorFull /\ b' = entering (mkBucket 10 3 1000 1000 0) (frozen 5)).
Proof.
  apply (Add_accepts_what_fits (frozen 5) (mkBucket 10 3 1000 1000 0) 3).
  - lia.
  - vm_compute. split; [discriminate | reflexivity].
Defined.

(** X2. On a clock that does not run backwards and with a rate that is not
    negative, [Add] never moves [reset] back, and the window it leaves has
    not yet ended at the reading it was tested against. *)
Theorem Add_leaves_an_open_window (clk : Clock) (b : bucket) (amount : Z) :
  0 <= rate b ->
  clk 1%nat <= clk 2%nat ->
  exists b' r clk',
    exec (Add b amount) clk = (Done (b', r), clk') /\
    reset b <= reset b' /\
    clk 1%nat <= reset b' /\
    capacity b' = capacity b /\ rate b' = rate b.
Proof.
  intros Hrate Hmono. rewrite exec_Add.
  exists (fst (consume (entering b clk) amount)), (snd (consume (entering b clk) amount)).
  eexists. split; [rewrite <- surjective_pairing; reflexivity |].
  rewrite consume_reset, consume_capacity, consume_rate.
  unfold entering, Time_After, Time_Add.
  destruct (Z.ltb_spec (reset b) (clk 1%nat)); cbn; lia.
Qed.

Lemma Add_leaves_an_open_window_witness :
  exists b' r clk',
    exec (Add (mkBucket 10 3 1000 1000 0) 1) (frozen 1500) = (Done (b', r), clk') /\
    1000 <= reset b' /\ 1500 <= reset b' /\ capacity b' = 10 /\ rate b' = 1000.
Proof.
  apply (Add_leaves_an_open_window (frozen 1500) (mkBucket 10 3 1000 1000 0) 1).
  - vm_compute. discriminate.
  - vm_compute. discriminate.
Defined.

(** X3. The wall clock reaches [AddWithTime] only through [updated]: on any
    two clocks it returns the same state and error and leaves the same
    bucket but for [updated]. *)
Theorem AddWithTime_ignores_the_wall_clock (clk1 clk2 : Clock) (b : bucket)
    (amount : Z) (t : Time) :
  exists b1 b2 r,
    exec (AddWithTime b amount t) clk1 = (Done (b1, r), later 1 clk1) /\
    exec (AddWithTime b amount t) clk2 = (Done (b2, r), later 1 clk2) /\
    b2 = set_updated b1 (clk2 0%nat) /\
    updated b1 = clk1 0%nat.
Proof.
  rewrite !AddWithTime_steps.
  unfold consume, realign, rollover_at. cbn [reset rate set_updated capacity remaining updated].
  destruct (Time_After t (reset b)); cbn [reset rate capacity remaining updated];
    destruct (Time_Before t _); cbn [set_reset reset rate capacity remaining updated];
    destruct (amount >? _); eexists _, _, _; repeat split.
Qed.

(** X4. [AddWithTime] refills the bucket exactly when the supplied time is
    after [reset]; a time before the window only moves [reset] and what
    remains is what was there. *)
Theorem AddWithTime_refills_only_after_reset (clk : Clock) (b : bucket)
    (amount : Z) (t : Time) :
  exists b1,
    exec (AddWithTime b amount t) clk = (Done (consume b1 amount), later 1 clk) /\
    capacity b1 = capacity b /\ rate b1 = rate b /\
    (reset b < t -> remaining b1 = capacity b /\ reset b1 = Time_Add t (rate b)) /\
    (t <= reset b -> remaining b1 = remaining b).
Proof.
  rewrite AddWithTime_steps. eexists. split; [reflexivity |].
  unfold realign, rollover_at, Time_After, Time_Before, Time_Add.
  cbn [set_updated reset rate capacity remaining updated].
  destruct (Z.ltb_spec (reset b) t) as [Hafter | Hnot];
    cbn [set_reset reset rate capacity remaining updated];
    match goal with |- context [?x <? ?y] => destruct (Z.ltb_spec x y) as [Hb | Hb] end;
    cbn; repeat split; intros; lia.
Qed.

End MemoryMore.

Section StorageMore.

Import memory.

(** X5. [Create] under a name the map does not know allocates a new cell
    holding a full bucket whose window ends one rate after the call; the
    cells and names that were there stay as they are, and none of them is
    the new cell. *)
Theorem Create_allocates_a_full_bucket (s : Storage) (h : Heap) (name : string)
    (c : Z) (r : Duration) (clk : Clock) :
  buckets s !! name = None ->
  storage_wf s h ->
  exists s1 h1 p,
    exec (Create s name c r h) clk = (Done ((s1, h1), (p, None)), later 2 clk) /\
    buckets s1 !! name = Some p /\
    h1 !! p = Some (mkBucket c c (Time_Add (clk 0%nat) r) r (clk 1%nat)) /\
    (forall n q, buckets s !! n = Some q ->
                 buckets s1 !! n = Some q /\ h1 !! q = h !! q /\ q <> p) /\
    storage_wf s1 h1.
Proof.
  intros Hnew [Hlive Hinj]. rewrite exec_Create, Hnew.
  eexists _, _, _. split; [reflexivity |]. unfold storage_wf. cbn [buckets].
  split; [apply lookup_insert_eq |].
  split; [apply list_lookup_middle; reflexivity |].
  assert (Hold : forall n q, buckets s !! n = Some q -> (q < length h)%nat).
  { intros n q Hq. apply lookup_lt_is_Some_1. eapply Hlive. exact Hq. }
  split.
  - intros n q Hq. pose proof (Hold n q Hq) as Hlt.
    split; [| split; [apply lookup_app_l; exact Hlt | lia]].
    rewrite lookup_insert_ne; [exact Hq |]. intros <-. congruence.
  - split.
    + intros n q. rewrite lookup_insert. case_decide as Hn.
      * intros Heq. injection Heq as <-. apply lookup_lt_is_Some_2.
        rewrite length_app. cbn. lia.
      * intros Hq. apply lookup_lt_is_Some_2. rewrite length_app.
        pose proof (Hold n q Hq). lia.
    + intros n1 n2 q. rewrite !lookup_insert.
      repeat case_decide; subst; intros H1 H2; simplify_eq; try reflexivity.
      * pose proof (Hold n2 _ H2). lia.
      * pose proof (Hold n1 _ H1). lia.
      * eapply Hinj; eassumption.
Qed.

(** A call through a pointer changes that cell and no other. *)
Lemma through_frame {A : Type} (p : ptr) (h h' : Heap) (a : A) (clk clk' : Clock)
    (method : bucket -> Prog clockE (bucket * A)) :
  exec (through p h method) clk = (Done (h', a), clk') ->
  length h' = length h /\ forall q, q <> p -> h' !! q = h !! q.
Proof.
  unfold through. destruct (h !! p) as [b |]; [| discriminate].
  rewrite exec_bind.
  destruct (exec (method b) clk) as [[[b' a'] | msg] clk0]; [| discriminate].
  cbn. intros Heq. injection Heq as <- _ _.
  split; [apply length_insert |].
  intros q Hq. apply list_lookup_insert_ne. congruence.
Qed.

(** [Clean] only takes entries away, and takes away every idle one. *)
Lemma Clean_range_sweeps (h : Heap) (entries : list (string * ptr)) :
  forall (s : Storage) (clk : Clock),
    (forall nm q, (nm, q) ∈ entries -> is_Some (h !! q)) ->
    exists s' clk',
      exec (Clean_range entries s h) clk = (Done s', clk') /\
      (forall nm q, buckets s' !! nm = Some q -> buckets s !! nm = Some q) /\
      (forall nm q b, (nm, q) ∈ entries -> h !! q = Some b -> idle b clk ->
                      buckets s' !! nm = None).
Proof.
  induction entries as [| [nm0 q0] entries IH]; intros s clk Hlive.
  - exists s, clk. split; [reflexivity |]. split; [auto |].
    intros nm q b Hin. inversion Hin.
  - destruct (Hlive nm0 q0) as [b0 Hb0]; [left |].
    cbn [Clean_range]. rewrite Hb0, exec_bind. cbn.
    match goal with |- context [exec (Clean_range entries ?s1 h) ?c1] =>
      destruct (IH s1 c1) as (s' & clk' & Hrun & Hsub & Hidle);
        [intros nm q Hin; apply (Hlive nm q); right; exact Hin |];
      set (s1' := s1) in *
    end.
    exists s', clk'. split; [exact Hrun |].
    assert (Hs1 : forall nm q, buckets s1' !! nm = Some q -> buckets s !! nm = Some q).
    { intros nm q. subst s1'.
      destruct (Time_Before _ _); cbn [buckets]; [| auto].
      rewrite lookup_delete. case_decide; [discriminate | auto]. }
    split; [intros nm q Hq; apply Hs1, Hsub; exact Hq |].
    intros nm q b Hin Hq Hb.
    apply elem_of_cons in Hin as [Heq | Hin].
    + injection Heq as -> ->. rewrite Hb0 in Hq. injection Hq as ->.
      destruct (buckets s' !! nm0) as [q' |] eqn:Hs'; [| reflexivity].
      apply Hsub in Hs'. subst s1'. exfalso.
      unfold Time_Before, Time_Add in Hs'.
      change (int64_mul (-1) Hour) with (- Hour) in Hs'.
      destruct (Z.ltb_spec (updated b) (clk 0%nat + - Hour)) as [Hold | Hyoung].
      * cbn [buckets] in Hs'. rewrite lookup_delete_eq in Hs'. discriminate.
      * pose proof (Hb 0%nat). lia.
    + apply (Hidle nm q b Hin Hq). intros i. apply (Hb (S i)).
Qed.

(** X6. [Clean] sweeps the whole map, whatever its argument: it returns,
    leaves no entry that was not there, keeps the entries of the buckets
    touched within the hour before every reading of the clock, and drops
    those of the buckets that no reading finds touched within the hour. *)
Theorem Clean_sweeps_the_idle (s : Storage) (h : Heap) (name0 : string)
    (clk : Clock) :
  (forall nm q, buckets s !! nm = Some q -> is_Some (h !! q)) ->
  exists s' clk',
    exec (Clean s name0 h) clk = (Done s', clk') /\
    (forall nm q, buckets s' !! nm = Some q -> buckets s !! nm = Some q) /\
    (forall nm q b, buckets s !! nm = Some q -> h !! q = Some b ->
       (active b clk -> buckets s' !! nm = Some q) /\
       (idle b clk -> buckets s' !! nm = None)).
Proof.
  intros Hlive. unfold Clean.
  assert (Hlive' : forall nm q, (nm, q) ∈ map_to_list (buckets s) -> is_Some (h !! q)).
  { intros nm q Hin. apply elem_of_map_to_list in Hin. eapply Hlive. exact Hin. }
  destruct (Clean_range_sweeps h (map_to_list (buckets s)) s clk Hlive')
    as (s' & clk' & Hrun & Hsub & Hidle).
  exists s', clk'. split; [exact Hrun |]. split; [exact Hsub |].
  intros nm q b Hq Hb. split.
  - intros Hactive.
    destruct (Clean_range_keeps nm h (map_to_list (buckets s)) s clk Hlive')
      as (s2 & clk2 & Hrun2 & Hkeep).
    + intros q' b' Hin Hq' i. apply elem_of_map_to_list in Hin.
      rewrite Hq in Hin. injection Hin as <-. rewrite Hb in Hq'. injection Hq' as <-.
      pose proof (Hactive i). lia.
    + rewrite Hrun in Hrun2. injection Hrun2 as <- _. rewrite Hkeep. exact Hq.
  - intros Hb'. apply (Hidle nm q b); [| exact Hb | exact Hb'].
    apply elem_of_map_to_list. exact Hq.
Qed.

End StorageMore.

Section StorageMore2.

Import memory.

Lemma memory_call_wf (s s' : Storage) (h h' : Heap) :
  memory_call (s, h) (s', h') -> storage_wf s h -> storage_wf s' h'.
Proof.
  intros Hcall Hwf. inversion Hcall as
      [ s0 h0 name c rt clk s1 h1 r clk' Hc Hrun
      | s0 h0 p amount clk h1 r clk' Ha Hrun
      | s0 h0 p amount t clk h1 r clk' Ha Hrun
      | s0 h0 name clk s1 clk' Hrun ]; subst.
  - destruct (buckets s !! name) as [p |] eqn:Hname.
    + rewrite exec_Create, Hname in Hrun. injection Hrun as <- <- _ _. exact Hwf.
    + destruct (Create_allocates_a_full_bucket s h name c rt clk Hname Hwf)
        as (s1 & h1 & p & Hrun1 & _ & _ & _ & Hwf1).
      rewrite Hrun in Hrun1. injection Hrun1 as -> -> _ _. exact Hwf1.
  - apply through_frame in Hrun as [Hlen _]. destruct Hwf as [Hlive Hinj].
    split; [| exact Hinj]. intros nm q Hq.
    apply lookup_lt_is_Some_2. rewrite Hlen. apply lookup_lt_is_Some_1. eauto.
  - apply through_frame in Hrun as [Hlen _]. destruct Hwf as [Hlive Hinj].
    split; [| exact Hinj]. intros nm q Hq.
    apply lookup_lt_is_Some_2. rewrite Hlen. apply lookup_lt_is_Some_1. eauto.
  - destruct Hwf as [Hlive Hinj].
    destruct (Clean_sweeps_the_idle s h' name clk Hlive) as (s1 & clk1 & Hrun1 & Hsub & _).
    rewrite Hrun in Hrun1. injection Hrun1 as -> _.
    split.
    + intros nm q Hq. eapply Hlive, Hsub, Hq.
    + intros n1 n2 q H1 H2. eapply Hinj; eapply Hsub; eassumption.
Qed.

Lemma memory_calls_wf (x y : Storage * Heap) :
  rtc memory_call x y -> storage_wf (fst x) (snd x) -> storage_wf (fst y) (snd y).
Proof.
  induction 1 as [x | [s h] [s1 h1] z Hstep Hrest IH]; intros Hx.
  - exact Hx.
  - apply IH. cbn in *. eapply memory_call_wf; eassumption.
Qed.

(** X7. However a [Storage] has been used since [New], every bucket its map
    points to is there, no two names share a bucket, and [Clean] returns. *)
Theorem reachable_storage_is_well_formed (s : Storage) (h : Heap) (name0 : string)
    (clk : Clock) :
  memory_reachable (s, h) ->
  storage_wf s h /\
  exists s' clk', exec (Clean s name0 h) clk = (Done s', clk').
Proof.
  intros Hreach.
  assert (Hwf : storage_wf s h).
  { apply (memory_calls_wf _ _ Hreach). split.
    - intros nm p Hp. cbn in Hp. rewrite lookup_empty in Hp. discriminate.
    - intros n1 n2 p Hp. cbn in Hp. rewrite lookup_empty in Hp. discriminate. }
  split; [exact Hwf |].
  destruct (Clean_sweeps_the_idle s h name0 clk (proj1 Hwf)) as (s' & clk' & Hrun & _).
  eauto.
Qed.

(** X8. Once [Clean] has dropped an idle bucket, [Create] under its name
    makes a new, full bucket in a new cell; the bucket that was dropped is
    untouched, so a handle kept from before goes on with the old bucket,
    apart from the one the map now knows. *)
Theorem Create_after_Clean_starts_afresh (s : Storage) (h : Heap)
    (name name0 : string) (p : ptr) (b : bucket) (c : Z) (r : Duration)
    (clk : Clock) :
  storage_wf s h ->
  buckets s !! name = Some p ->
  h !! p = Some b ->
  idle b clk ->
  exists s1 clk1 s2 h2 p' clk2,
    exec (Clean s name0 h) clk = (Done s1, clk1) /\
    exec (Create s1 name c r h) clk1 = (Done ((s2, h2), (p', None)), clk2) /\
    p' <> p /\
    h2 !! p = Some b /\
    h2 !! p' = Some (mkBucket c c (Time_Add (clk1 0%nat) r) r (clk1 1%nat)) /\
    buckets s2 !! name = Some p'.
Proof.
  intros [Hlive Hinj] Hname Hp Hidle.
  destruct (Clean_sweeps_the_idle s h name0 clk Hlive)
    as (s1 & clk1 & Hclean & Hsub & Hswept).
  pose proof (proj2 (Hswept name p b Hname Hp) Hidle) as Hgone.
  eexists s1, clk1, _, _, _, _. split; [exact Hclean |].
  split; [rewrite exec_Create, Hgone; reflexivity |].
  pose proof (lookup_lt_Some _ _ _ Hp) as Hlt. cbn [buckets].
  split; [lia |].
  split; [rewrite lookup_app_l by exact Hlt; exact Hp |].
  split; [apply list_lookup_middle; reflexivity | apply lookup_insert_eq].
Qed.

(** X9. A bucket made by [Create] with capacity [c] gives all of [c] to an
    [Add] that comes within its first window and then refuses even 1. *)
Theorem new_bucket_gives_its_capacity_once (s : Storage) (h : Heap)
    (name : string) (c : Z) (r : Duration) (clk : Clock) :
  buckets s !! name = None ->
  is_uint c ->
  (forall i, clk (2 + i)%nat <= Time_Add (clk 0%nat) r) ->
  exists s1 h1 p clk1 h2 st2 clk2 h3 st3 clk3,
    exec (Create s name c r h) clk = (Done ((s1, h1), (p, None)), clk1) /\
    exec (through p h1 (fun b => Add b c)) clk1 = (Done (h2, (st2, None)), clk2) /\
    leakybucket.Remaining st2 = 0 /\
    exec (through p h2 (fun b => Add b 1)) clk2
      = (Done (h3, (st3, Some ErrorFull)), clk3) /\
    leakybucket.Remaining st3 = 0 /\
    leakybucket.Reset st3 = Time_Add (clk 0%nat) r.
Proof.
  intros Hnew Hc Hclk. unfold is_uint in Hc.
  set (b0 := mkBucket c c (Time_Add (clk 0%nat) r) r (clk 1%nat)).
  set (b1 := mkBucket c 0 (Time_Add (clk 0%nat) r) r (clk 2%nat)).
  set (b2 := mkBucket c 0 (Time_Add (clk 0%nat) r) r (clk 4%nat)).
  set (h1 := h ++ [b0]).
  set (h2 := <[length h := b1]> h1).
  assert (Hp1 : h1 !! length h = Some b0)
    by (apply list_lookup_middle; reflexivity).
  assert (Hp2 : h2 !! length h = Some b1).
  { apply list_lookup_insert_eq. unfold h1. rewrite length_app. cbn. lia. }
  assert (Hfirst : exec (Add b0 c) (later 2 clk)
                   = (Done (b1, (snapshot b1, None)), later 2 (later 2 clk))).
  { rewrite exec_Add. unfold entering, Time_After, later, b0, b1.
    cbn [reset remaining capacity rate Nat.add].
    destruct (Z.ltb_spec (Time_Add (clk 0%nat) r) (clk 3%nat)) as [Hroll | _];
      [pose proof (Hclk 1%nat) as Hle; unfold Time_Add in *; cbn [Nat.add] in Hle; exfalso; lia |].
    unfold consume. cbn [remaining capacity rate].
    destruct (Z.gtb_spec c c) as [Habs | _]; [exfalso; lia |].
    rewrite uint_sub_small by lia. rewrite Z.sub_diag. reflexivity. }
  assert (Hsecond : exec (Add b1 1) (later 2 (later 2 clk))
                    = (Done (b2, (snapshot b2, Some ErrorFull)),
                       later 2 (later 2 (later 2 clk)))).
  { rewrite exec_Add. unfold entering, Time_After, later, b1, b2.
    cbn [reset remaining capacity rate Nat.add].
    destruct (Z.ltb_spec (Time_Add (clk 0%nat) r) (clk 5%nat)) as [Hroll | _];
      [pose proof (Hclk 3%nat) as Hle; unfold Time_Add in *; cbn [Nat.add] in Hle; exfalso; lia |].
    reflexivity. }
  exists (mkStorage (<[name := length h]> (buckets s))), h1, (length h), (later 2 clk),
    h2, (snapshot b1), (later 2 (later 2 clk)),
    (<[length h := b2]> h2), (snapshot b2), (later 2 (later 2 (later 2 clk))).
  split; [rewrite exec_Create, Hnew; reflexivity |].
  split; [rewrite (exec_through _ _ _ _ _ Hp1), Hfirst; reflexivity |].
  split; [reflexivity |].
  split; [rewrite (exec_through _ _ _ _ _ Hp2), Hsecond; reflexivity |].
  split; reflexivity.
Qed.

(** X10. At a time that is not before the current window, [AddWithTime] with
    the time of the call does what [Add] does. *)
Theorem AddWithTime_now_is_Add (now : Time) (b : bucket) (amount : Z) :
  Time_Add (reset b) (int64_mul (-1) (rate b)) <= now ->
  fst (exec (AddWithTime b amount now) (frozen now))
    = fst (exec (Add b amount) (frozen now)).
Proof.
  intros Hstarted. rewrite AddWithTime_steps, exec_Add. cbn [fst]. do 2 f_equal.
  unfold realign, rollover_at, entering, frozen, Time_After, Time_Before, Time_Add in *.
  cbn [set_updated reset rate capacity remaining updated].
  destruct (Z.ltb_spec (reset b) now) as [Hafter | Hnot];
    cbn [set_reset reset rate capacity remaining updated];
    match goal with |- context [?x <? ?y] => destruct (Z.ltb_spec x y) as [Hb | Hb] end;
    try reflexivity.
  exfalso. cbn in Hb. lia.
Qed.

End StorageMore2.

(* ================================================================== *)
(** * More about the redis backend *)
(* ================================================================== *)

Section RedisMore.

Import leakybucket.

Context {W : Type} (env : Env W).

(** What [Add_checked] sends, whatever it is answered. *)
Lemma Add_checked_log (b : redis.bucket) (amount : Z) (w w' : W)
    (out : Outcome (redis.bucket * (BucketState * option error))) (log : list Cmd) :
  run env (redis.Add_checked b amount) w = (out, w', log) ->
  let k := redis.name b in
  let expiry := int64_div (redis.rate b) redis.millisecond in
  log = [] \/ log = [PTTL k] \/
  log = [INCRBY k amount] \/ log = [INCRBY k amount; PTTL k] \/
  log = [INCRBY k amount; PEXPIRE k expiry] \/
  log = [INCRBY k amount; PEXPIRE k expiry; PTTL k].
Proof.
  rewrite run_Add_checked. unfold Nanoseconds. cbv zeta.
  destruct (amount >? redis.remaining b).
  - destruct (run env (redis.updateOldReset b) w) as [[out1 w1] log1] eqn:Hupd.
    apply updateOldReset_log in Hupd.
    destruct out1 as [[b1 e] | msg]; intros Heq; injection Heq as _ _ <-;
      destruct Hupd as [-> | ->]; auto.
  - destruct (env_do env (INCRBY (redis.name b) amount) w) as [[reply [err |]] w1].
    { intros Heq. injection Heq as _ _ <-. auto. }
    destruct reply as [| arr | c | st]; try (intros Heq; injection Heq as _ _ <-; auto 10).
    destruct (uint c =? amount).
    + destruct (env_do env (PEXPIRE (redis.name b) _) w1) as [[reply [err |]] w2].
      { intros Heq. injection Heq as _ _ <-. auto 10. }
      destruct (run env (redis.updateOldReset b) w2) as [[out1 w3] log1] eqn:Hupd.
      apply updateOldReset_log in Hupd.
      destruct out1 as [[b1 e] | msg]; intros Heq; injection Heq as _ _ <-;
        destruct Hupd as [-> | ->]; auto 10.
    + destruct (run env (redis.updateOldReset b) w1) as [[out1 w3] log1] eqn:Hupd.
      apply updateOldReset_log in Hupd.
      destruct out1 as [[b1 e] | msg]; intros Heq; injection Heq as _ _ <-;
        destruct Hupd as [-> | ->]; auto 10.
Qed.

(** X11. Whatever the server answers, [Add] starts with GET and sends at most
    one INCRBY, one PEXPIRE and one PTTL after it, in that order and all
    about the bucket's own key; PEXPIRE and PTTL only ever follow as shown. *)
Theorem Add_sends_at_most_four_commands (b : redis.bucket) (amount : Z) (w : W) :
  let k := redis.name b in
  let expiry := int64_div (redis.rate b) redis.millisecond in
  let log := snd (run env (redis.Add b amount) w) in
  (log = [GET k] \/ log = [GET k; PTTL k] \/
   log = [GET k; INCRBY k amount] \/ log = [GET k; INCRBY k amount; PTTL k] \/
   log = [GET k; INCRBY k amount; PEXPIRE k expiry] \/
   log = [GET k; INCRBY k amount; PEXPIRE k expiry; PTTL k]) /\
  Forall (fun c => key_of c = Some k) log.
Proof.
  cbv zeta.
  assert (Hshape :
    let log := snd (run env (redis.Add b amount) w) in
    log = [GET (redis.name b)] \/ log = [GET (redis.name b); PTTL (redis.name b)] \/
    log = [GET (redis.name b); INCRBY (redis.name b) amount] \/
    log = [GET (redis.name b); INCRBY (redis.name b) amount; PTTL (redis.name b)] \/
    log = [GET (redis.name b); INCRBY (redis.name b) amount;
           PEXPIRE (redis.name b) (int64_div (redis.rate b) redis.millisecond)] \/
    log = [GET (redis.name b); INCRBY (redis.name b) amount;
           PEXPIRE (redis.name b) (int64_div (redis.rate b) redis.millisecond);
           PTTL (redis.name b)]).
  { cbv zeta. rewrite run_Add.
    destruct (env_do env (GET (redis.name b)) w) as [[count [err |]] w1]; [cbn; auto |].
    destruct (redis.remaining_read (redis.capacity b) count) as [quota |].
    - destruct (run env (redis.Add_checked (redis.set_remaining b quota) amount) w1)
        as [[out w2] log2] eqn:Hrun.
      apply Add_checked_log in Hrun. cbn in Hrun. cbn [snd].
      destruct Hrun as [-> | [-> | [-> | [-> | [-> | ->]]]]]; auto 10.
    - destruct count; cbn; auto. }
  split; [exact Hshape |].
  cbv zeta in Hshape.
  destruct Hshape as [-> | [-> | [-> | [-> | [-> | ->]]]]];
    repeat constructor.
Qed.

(** On every path [Add] returns the state of the bucket as it leaves it, and
    leaves the name, the capacity and the rate alone. *)
Lemma Add_checked_frame (b b' : redis.bucket) (amount : Z) (st : BucketState)
    (e : option error) (w w' : W) (log : list Cmd) :
  run env (redis.Add_checked b amount) w = (Done (b', (st, e)), w', log) ->
  st = redis.State b' /\ redis.name b' = redis.name b /\
  redis.capacity b' = redis.capacity b /\ redis.rate b' = redis.rate b.
Proof.
  rewrite run_Add_checked.
  destruct (amount >? redis.remaining b).
  - destruct (run env (redis.updateOldReset b) w) as [[[[b1 e1] | msg] w1] log1] eqn:Hupd;
      [| discriminate].
    apply updateOldReset_frame in Hupd as (Hn & Hc & _ & Hr & _).
    intros Heq. injection Heq as <- <- _ _ _. auto.
  - destruct (env_do env (INCRBY (redis.name b) amount) w) as [[reply [err |]] w1].
    { intros Heq. injection Heq as <- <- _ _ _. auto. }
    destruct reply as [| arr | c | s]; try discriminate.
    destruct (uint c =? amount).
    + destruct (env_do env (PEXPIRE (redis.name b) _) w1) as [[reply [err |]] w2].
      { intros Heq. injection Heq as <- <- _ _ _. auto. }
      destruct (run env (redis.updateOldReset b) w2) as [[[[b1 e1] | msg] w3] log1] eqn:Hupd;
        [| discriminate].
      apply updateOldReset_frame in Hupd as (Hn & Hc & _ & Hr & _).
      intros Heq. injection Heq as <- <- _ _ _. auto.
    + destruct (run env (redis.updateOldReset b) w1) as [[[[b1 e1] | msg] w3] log1] eqn:Hupd;
        [| discriminate].
      apply updateOldReset_frame in Hupd as (Hn & Hc & _ & Hr & _).
      intros Heq. injection Heq as <- <- _ _ _. auto.
Qed.

(** X12. Whatever [Add] returns, the state is that of the bucket as the call
    leaves it, and the name, the capacity and the rate are as before. *)
Theorem Add_returns_the_bucket_it_leaves (b b' : redis.bucket) (amount : Z)
    (st : BucketState) (e : option error) (w w' : W) (log : list Cmd) :
  run env (redis.Add b amount) w = (Done (b', (st, e)), w', log) ->
  st = redis.State b' /\ redis.name b' = redis.name b /\
  redis.capacity b' = redis.capacity b /\ redis.rate b' = redis.rate b.
Proof.
  rewrite run_Add.
  destruct (env_do env (GET (redis.name b)) w) as [[count [err |]] w1].
  { intros Heq. injection Heq as <- <- _ _ _. auto. }
  destruct (redis.remaining_read (redis.capacity b) count) as [quota |].
  - destruct (run env (redis.Add_checked (redis.set_remaining b quota) amount) w1)
      as [[out w2] log2] eqn:Hrun.
    intros Heq. injection Heq as -> _ _.
    apply Add_checked_frame in Hrun. exact Hrun.
  - destruct count; try discriminate.
    intros Heq. injection Heq as <- <- _ _ _. auto.
Qed.

(** X13. An error on GET is returned with the bucket untouched and nothing
    more sent; an error on INCRBY is returned after these two commands, with
    the quota just read in the state. *)
Theorem Add_reports_connection_errors (b : redis.bucket) (amount : Z)
    (w w1 w2 : W) (reply : Reply) (e : error) (count : Reply) (quota : Z) :
  (env_do env (GET (redis.name b)) w = ((reply, Some e), w1) ->
   run env (redis.Add b amount) w
     = (Done (b, (redis.State b, Some e)), w1, [GET (redis.name b)]))
  /\
  (env_do env (GET (redis.name b)) w = ((count, None), w1) ->
   redis.remaining_read (redis.capacity b) count = Some quota ->
   amount <= quota ->
   env_do env (INCRBY (redis.name b) amount) w1 = ((reply, Some e), w2) ->
   run env (redis.Add b amount) w
     = (Done (redis.set_remaining b quota,
              (redis.State (redis.set_remaining b quota), Some e)),
        w2, [GET (redis.name b); INCRBY (redis.name b) amount])).
Proof.
  split.
  - intros Hget. rewrite run_Add, Hget. reflexivity.
  - intros Hget Hread Hfits Hincr.
    rewrite run_Add, Hget, Hread, run_Add_checked.
    cbn [redis.remaining redis.set_remaining redis.name].
    destruct (Z.gtb_spec amount quota) as [Hfull | _]; [exfalso; lia |].
    rewrite Hincr. reflexivity.
Qed.


End RedisMore.

Section RedisMore2.

Import leakybucket.

Context {W : Type} (env : Env W).

Lemma Add_checked_success_value (b b' : redis.bucket) (amount : Z)
    (st : BucketState) (w w' : W) (log : list Cmd) :
  run env (redis.Add_checked b amount) w = (Done (b', (st, None)), w', log) ->
  amount <= redis.remaining b /\
  exists (c : Z) (w2 : W),
    env_do env (INCRBY (redis.name b) amount) w = ((RInt c, None), w2) /\
    Remaining st = uint_sub (redis.capacity b) (redis.min (uint c) (redis.capacity b)).
Proof.
  rewrite run_Add_checked.
  destruct (Z.gtb_spec amount (redis.remaining b)) as [Hfull | Hfits].
  { destruct (run env (redis.updateOldReset b) w) as [[[[b1 e] | msg] w3] logu];
      intros Heq; discriminate. }
  destruct (env_do env (INCRBY (redis.name b) amount) w) as [[reply [err |]] w2];
    [intros Heq; discriminate |].
  destruct reply as [| arr | c | s]; try (intros Heq; discriminate).
  destruct (uint c =? amount).
  - destruct (env_do env (PEXPIRE (redis.name b) _) w2) as [[reply [err |]] w3];
      [intros Heq; discriminate |].
    destruct (run env (redis.updateOldReset b) w3) as [[[[b1 e] | msg] w4] logu] eqn:Hupd;
      [| intros Heq; discriminate].
    apply updateOldReset_frame in Hupd as (_ & Hc & _).
    intros Heq. injection Heq as _ <- _ _.
    split; [exact Hfits |]. exists c, w2. split; [reflexivity |].
    cbn. rewrite Hc. reflexivity.
  - destruct (run env (redis.updateOldReset b) w2) as [[[[b1 e] | msg] w4] logu] eqn:Hupd;
      [| intros Heq; discriminate].
    apply updateOldReset_frame in Hupd as (_ & Hc & _).
    intros Heq. injection Heq as _ <- _ _.
    split; [exact Hfits |]. exists c, w2. split; [reflexivity |].
    cbn. rewrite Hc. reflexivity.
Qed.

(** X15. A successful [Add] has read the counter, found room, and
    incremented it; what remains in the state it returns is the capacity
    less the value INCRBY returned, and nothing when that value is at or
    past the capacity. *)
Theorem successful_Add_projects_the_counter (b b' : redis.bucket) (amount : Z)
    (st : BucketState) (w w' : W) (log : list Cmd) :
  run env (redis.Add b amount) w = (Done (b', (st, None)), w', log) ->
  exists (count : Reply) (quota c : Z) (w1 w2 : W),
    env_do env (GET (redis.name b)) w = ((count, None), w1) /\
    redis.remaining_read (redis.capacity b) count = Some quota /\
    amount <= quota /\
    env_do env (INCRBY (redis.name b) amount) w1 = ((RInt c, None), w2) /\
    Remaining st = uint_sub (redis.capacity b) (redis.min (uint c) (redis.capacity b)) /\
    (is_uint (redis.capacity b) -> 0 <= c < 2 ^ 63 ->
     Remaining st = Z.max 0 (redis.capacity b - c)).
Proof.
  rewrite run_Add.
  destruct (env_do env (GET (redis.name b)) w) as [[count [err |]] w1];
    [intros Heq; discriminate |].
  destruct (redis.remaining_read (redis.capacity b) count) as [quota |] eqn:Hread.
  2:{ destruct count as [| arr | n | s]; intros Heq; try discriminate.
      cbn [redis.remaining_read] in Hread.
      destruct (redis.byteArrayToUint arr) as [num [err |]]; discriminate. }
  destruct (run env (redis.Add_checked (redis.set_remaining b quota) amount) w1)
    as [[out w2] log2] eqn:Hrun.
  intros Heq. injection Heq as -> -> _.
  apply Add_checked_success_value in Hrun as (Hfits & c & w3 & Hincr & Hst).
  cbn [redis.remaining redis.set_remaining redis.name redis.capacity] in *.
  exists count, quota, c, w1, w3.
  split; [reflexivity |]. split; [exact Hread |]. split; [exact Hfits |].
  split; [exact Hincr |]. split; [exact Hst |].
  intros Hcap Hc. rewrite Hst. unfold is_uint in Hcap.
  rewrite (uint_small c) by (unfold is_uint; lia).
  unfold redis.min. destruct (Z.ltb_spec c (redis.capacity b));
    rewrite uint_sub_small by lia; lia.
Qed.

(** X16. The error of a failing PTTL is never reported by [Add]: a call that
    has incremented the counter still returns no error, and a refused call
    still returns [ErrorFull]; in both the cached [reset] stays. *)
Theorem Add_drops_the_error_of_PTTL (b : redis.bucket) (amount : Z)
    (w w1 w2 w3 w4 : W) (count reply : Reply) (quota c : Z) (now : Time)
    (e : error) :
  env_do env (GET (redis.name b)) w = ((count, None), w1) ->
  redis.remaining_read (redis.capacity b) count = Some quota ->
  (amount > quota /\ w2 = w1 \/
   amount <= quota /\ uint c <> amount /\
   env_do env (INCRBY (redis.name b) amount) w1 = ((RInt c, None), w2)) ->
  env_now env w2 = (now, w3) ->
  Time_Unix (redis.reset b) <= Time_Unix now ->
  env_do env (PTTL (redis.name b)) w3 = ((reply, Some e), w4) ->
  exists b' err log,
    run env (redis.Add b amount) w = (Done (b', (redis.State b', err)), w4, log) /\
    redis.reset b' = redis.reset b /\
    (err = None \/ err = Some ErrorFull) /\
    (err = None <-> amount <= quota) /\
    In (PTTL (redis.name b)) log.
Proof.
  intros Hget Hread Hcase Hnow Hold Hpttl.
  assert (Hupd : run env (redis.updateOldReset (redis.set_remaining b quota)) w2
                 = (Done (redis.set_remaining b quota, Some e), w4, [PTTL (redis.name b)])).
  { rewrite run_updateOldReset, Hnow. cbn [redis.reset redis.set_remaining redis.name].
    destruct (Z.gtb_spec (Time_Unix (redis.reset b)) (Time_Unix now)); [exfalso; lia |].
    rewrite Hpttl. reflexivity. }
  rewrite run_Add, Hget, Hread, run_Add_checked.
  cbn [redis.remaining redis.set_remaining redis.name redis.rate].
  destruct Hcase as [[Hfull ->] | (Hfits & Hne & Hincr)].
  - destruct (Z.gtb_spec amount quota) as [_ | Hfits]; [| exfalso; lia].
    rewrite Hupd. eexists _, _, _. split; [reflexivity |].
    split; [reflexivity |]. split; [auto |].
    split; [split; [discriminate | lia] |]. cbn. auto.
  - destruct (Z.gtb_spec amount quota) as [Hfull | _]; [exfalso; lia |].
    rewrite Hincr. apply Z.eqb_neq in Hne. rewrite Hne, Hupd.
    eexists _, _, _. split; [reflexivity |].
    split; [reflexivity |]. split; [auto |].
    split; [split; auto |]. cbn. auto.
Qed.

(** [strconv.Atoi] returns an [int]. *)
Lemma Atoi_range (arr : list byte) (n : Z) :
  Atoi arr = (n, None) -> is_int64 n.
Proof.
  unfold Atoi.
  set (sb := match arr with
             | "-"%byte :: s' => (true, s')
             | "+"%byte :: s' => (false, s')
             | _ => (false, arr)
             end).
  destruct sb as [neg body].
  destruct body as [| c body]; [discriminate |].
  destruct (digits_val 0 (c :: body)) as [v |]; [| discriminate].
  destruct (in_int_range (if neg then - v else v)) eqn:Hrange; [| discriminate].
  intros Heq. injection Heq as <-.
  unfold in_int_range in Hrange. apply andb_true_iff in Hrange as [H1 H2].
  unfold is_int64. lia.
Qed.

(** X17. A stored counter at or past the capacity, or a negative one under a
    capacity of at most [2^63], leaves nothing: [Add] of any amount above
    zero sends no INCRBY and whatever it returns is [ErrorFull] with zero
    remaining. *)
Theorem spent_counter_refuses_every_amount (b : redis.bucket) (amount : Z)
    (w w1 : W) (arr : list byte) (n : Z) :
  env_do env (GET (redis.name b)) w = ((RBulk arr, None), w1) ->
  Atoi arr = (n, None) ->
  is_uint (redis.capacity b) ->
  redis.capacity b <= n \/ (n < 0 /\ redis.capacity b <= 2 ^ 63) ->
  0 < amount ->
  exists out w' log,
    run env (redis.Add b amount) w = (out, w', log) /\
    (log = [GET (redis.name b)] \/ log = [GET (redis.name b); PTTL (redis.name b)]) /\
    forall b' st err, out = Done (b', (st, err)) ->
      err = Some ErrorFull /\ Remaining st = 0 /\ redis.remaining b' = 0.
Proof.
  intros Hget Hparse Hcap Hspent Hamount.
  pose proof (Atoi_range arr n Hparse) as Hn.
  assert (Hread : redis.remaining_read (redis.capacity b) (RBulk arr) = Some 0).
  { cbn [redis.remaining_read]. unfold redis.byteArrayToUint. rewrite Hparse.
    f_equal. rewrite (uint_small (uint n)) by apply uint_is_uint.
    assert (Hge : redis.capacity b <= uint n).
    { unfold is_uint, is_int64, uint in *.
      destruct Hspent as [Hle | [Hneg Hsmall]].
      - rewrite Z.mod_small by lia. exact Hle.
      - replace n with (n + 2 ^ 64 + (-1) * 2 ^ 64) by lia.
        rewrite Z.mod_add by lia. rewrite Z.mod_small by lia. lia. }
    unfold redis.min. destruct (Z.ltb_spec (uint n) (redis.capacity b)); [lia |].
    unfold is_uint in Hcap. rewrite uint_sub_small by lia. lia. }
  rewrite run_Add, Hget, Hread, run_Add_checked.
  cbn [redis.remaining redis.set_remaining].
  destruct (Z.gtb_spec amount 0) as [_ | Hno]; [| exfalso; lia].
  destruct (run env (redis.updateOldReset (redis.set_remaining b 0)) w1)
    as [[out1 w'] log1] eqn:Hupd.
  pose proof (updateOldReset_log env _ _ _ _ _ Hupd) as Hlog.
  cbn [redis.name redis.set_remaining] in Hlog.
  destruct out1 as [[b1 e] | msg].
  - apply updateOldReset_frame in Hupd as (_ & _ & Hr & _).
    eexists _, _, _. split; [reflexivity |].
    split; [destruct Hlog as [-> | ->]; auto |].
    intros b' st err Heq. injection Heq as <- <- <-. cbn in *. auto.
  - eexists _, _, _. split; [reflexivity |].
    split; [destruct Hlog as [-> | ->]; auto |].
    intros b' st err Heq. discriminate.
Qed.

(** X18. [Create] returns a bucket exactly when it returns no error.  For a
    key that exists the bucket's [reset] is the time it is plus the key's
    PTTL in milliseconds, so a key with a negative PTTL (one that has no
    expiry answers -1) gives a bucket whose [reset] is already past. *)
Theorem Create_returns_a_bucket_or_an_error (s : redis.Storage) (name : string)
    (c : Z) (r : Duration) (w w' : W) (ob : option redis.bucket)
    (e : option error) (log : list Cmd) :
  run env (redis.Create s name c r) w = (Done (ob, e), w', log) ->
  (ob = None <-> e <> None) /\
  (forall b, ob = Some b ->
     In (PTTL name) log ->
     exists (ttl now : Z) (w1 w2 : W),
       env_do env (PTTL name) w1 = ((RInt ttl, None), w2) /\
       env_now env w2 = (now, w') /\
       redis.reset b = Time_Add now (int64_mul ttl redis.millisecond) /\
       (- 2 ^ 43 <= ttl < 0 -> redis.reset b < now)).
Proof.
  rewrite run_Create.
  destruct (env_do env (GET name) w) as [[count [err |]] w1].
  { intros Heq. injection Heq as <- <- _ _.
    split; [split; [discriminate | reflexivity] | discriminate]. }
  destruct count as [| arr | n | st]; try discriminate.
  - destruct (env_now env w1) as [now w2].
    intros Heq. injection Heq as <- <- _ <-.
    split; [split; [discriminate | intros H; contradiction] |].
    intros b _ Hin. cbn in Hin. destruct Hin as [Hin | []]. discriminate.
  - destruct (redis.byteArrayToUint arr) as [num [err |]].
    { intros Heq. injection Heq as <- <- _ _.
      split; [split; [discriminate | reflexivity] | discriminate]. }
    destruct (env_do env (PTTL name) w1) as [[ttl [err |]] w2] eqn:Hpttl.
    { intros Heq. injection Heq as <- <- _ _.
      split; [split; [discriminate | reflexivity] | discriminate]. }
    destruct (env_now env w2) as [now w3] eqn:Hnow.
    destruct ttl as [| arr' | ttl | st]; try discriminate.
    intros Heq. injection Heq as <- <- <- _.
    split; [split; [discriminate | intros H; contradiction] |].
    intros b Hb _. injection Hb as <-.
    exists ttl, now, w1, w2. split; [exact Hpttl |]. split; [exact Hnow |].
    split; [reflexivity |].
    intros Httl. cbn [redis.reset]. unfold Time_Add, int64_mul.
    change redis.millisecond with 1000000.
    rewrite int64_small by (unfold is_int64; lia). lia.
Qed.

End RedisMore2.

(* ================================================================== *)
(** * The further properties on examples *)
(* ================================================================== *)

Section MemoryExamples.

Import memory scenario.

Lemma New_is_well_formed : storage_wf New [].
Proof.
  split.
  - intros nm p Hp. cbn in Hp. rewrite lookup_empty in Hp. discriminate.
  - intros n1 n2 p Hp. cbn in Hp. rewrite lookup_empty in Hp. discriminate.
Qed.

Lemma idle_storage_is_well_formed : storage_wf idle_storage idle_heap.
Proof.
  unfold idle_storage. split; cbn [buckets].
  - intros nm p Hp. apply lookup_singleton_Some in Hp as [_ <-].
    eexists. reflexivity.
  - intros n1 n2 p H1 H2.
    apply lookup_singleton_Some in H1 as [<- _].
    apply lookup_singleton_Some in H2 as [<- _]. reflexivity.
Qed.

Lemma AddWithTime_refills_only_after_reset_witness :
  exists b1,
    exec (AddWithTime (mkBucket 10 3 5000 1000 0) 1 5001) (frozen 7)
      = (Done (consume b1 1), later 1 (frozen 7)) /\
    remaining b1 = 10 /\ reset b1 = 6001.
Proof.
  destruct (AddWithTime_refills_only_after_reset (frozen 7)
              (mkBucket 10 3 5000 1000 0) 1 5001)
    as (b1 & Hrun & _ & _ & Hafter & _).
  exists b1. split; [exact Hrun |]. apply Hafter. vm_compute. reflexivity.
Defined.

Lemma Create_allocates_a_full_bucket_witness :
  exists s1 h1 p,
    exec (Create New "a" 10 Second []) (frozen 7)
      = (Done ((s1, h1), (p, None)), later 2 (frozen 7)) /\
    buckets s1 !! "a" = Some p /\
    h1 !! p = Some (mkBucket 10 10 (Time_Add 7 Second) Second 7) /\
    (forall n q, buckets New !! n = Some q ->
                 buckets s1 !! n = Some q /\ h1 !! q = [] !! q /\ q <> p) /\
    storage_wf s1 h1.
Proof.
  apply (Create_allocates_a_full_bucket New [] "a" 10 Second (frozen 7)).
  - vm_compute. reflexivity.
  - exact New_is_well_formed.
Defined.

Lemma Clean_sweeps_the_idle_witness :
  exists s' clk',
    exec (Clean idle_storage "" idle_heap) (frozen (2 * Hour)) = (Done s', clk') /\
    buckets s' !! "a" = None.
Proof.
  destruct (Clean_sweeps_the_idle idle_storage idle_heap "" (frozen (2 * Hour))
              (proj1 idle_storage_is_well_formed))
    as (s' & clk' & Hrun & _ & Hswept).
  exists s', clk'. split; [exact Hrun |].
  apply (Hswept "a" 0%nat (mkBucket 10 0 (10 * Hour) Hour 0)).
  - vm_compute. reflexivity.
  - reflexivity.
  - intros i. vm_compute. reflexivity.
Defined.

Lemma reachable_storage_is_well_formed_witness :
  storage_wf used_storage used_heap /\
  exists s' clk', exec (Clean used_storage "" used_heap) (frozen 0) = (Done s', clk').
Proof.
  apply (reachable_storage_is_well_formed used_storage used_heap "" (frozen 0)).
  exact used_storage_reachable.
Defined.

Lemma Create_after_Clean_starts_afresh_witness :
  exists s1 clk1 s2 h2 p' clk2,
    exec (Clean idle_storage "" idle_heap) (frozen (2 * Hour)) = (Done s1, clk1) /\
    exec (Create s1 "a" 5 Second idle_heap) clk1 = (Done ((s2, h2), (p', None)), clk2) /\
    p' <> 0%nat /\
    h2 !! 0%nat = Some (mkBucket 10 0 (10 * Hour) Hour 0) /\
    h2 !! p' = Some (mkBucket 5 5 (Time_Add (clk1 0%nat) Second) Second (clk1 1%nat)) /\
    buckets s2 !! "a" = Some p'.
Proof.
  apply (Create_after_Clean_starts_afresh idle_storage idle_heap "a" "" 0
           (mkBucket 10 0 (10 * Hour) Hour 0) 5 Second (frozen (2 * Hour))).
  - exact idle_storage_is_well_formed.
  - vm_compute. reflexivity.
  - reflexivity.
  - intros i. vm_compute. reflexivity.
Defined.

Lemma new_bucket_gives_its_capacity_once_witness :
  exists s1 h1 p clk1 h2 st2 clk2 h3 st3 clk3,
    exec (Create New "a" 10 Second []) (frozen 7) = (Done ((s1, h1), (p, None)), clk1) /\
    exec (through p h1 (fun b => Add b 10)) clk1 = (Done (h2, (st2, None)), clk2) /\
    leakybucket.Remaining st2 = 0 /\
    exec (through p h2 (fun b => Add b 1)) clk2
      = (Done (h3, (st3, Some ErrorFull)), clk3) /\
    leakybucket.Remaining st3 = 0 /\
    leakybucket.Reset st3 = Time_Add 7 Second.
Proof.
  apply (new_bucket_gives_its_capacity_once New [] "a" 10 Second (frozen 7)).
  - vm_compute. reflexivity.
  - vm_compute. split; [discriminate | reflexivity].
  - intros i. vm_compute. discriminate.
Defined.

Lemma AddWithTime_now_is_Add_witness :
  fst (exec (AddWithTime (mkBucket 10 3 5000 1000 0) 2 5500) (frozen 5500))
    = fst (exec (Add (mkBucket 10 3 5000 1000 0) 2) (frozen 5500)).
Proof.
  apply (AddWithTime_now_is_Add 5500 (mkBucket 10 3 5000 1000 0) 2).
  vm_compute. discriminate.
Defined.

End MemoryExamples.

Section RedisExamples.

Import leakybucket scenario.

Lemma Add_returns_the_bucket_it_leaves_witness :
  mkBucketState 10 6 Hour = redis.State (redis.mkBucket "k" 10 6 Hour Hour) /\
  redis.name (redis.mkBucket "k" 10 6 Hour Hour) = redis.name hourly /\
  redis.capacity (redis.mkBucket "k" 10 6 Hour Hour) = redis.capacity hourly /\
  redis.rate (redis.mkBucket "k" 10 6 Hour Hour) = redis.rate hourly.
Proof.
  apply (Add_returns_the_bucket_it_leaves server.env hourly
           (redis.mkBucket "k" 10 6 Hour Hour) 4 (mkBucketState 10 6 Hour) None
           ten_past (snd (fst (run server.env (redis.Add hourly 4) ten_past)))
           [GET "k"; INCRBY "k" 4; PEXPIRE "k" 3600000]).
  vm_compute. reflexivity.
Defined.

Lemma Add_reports_connection_errors_witness :
  run script.env (redis.Add hourly 4) (script.mkWorld [] [script.timeout])
    = (Done (hourly, (redis.State hourly, Some (ConnError "i/o timeout"))),
       script.mkWorld [] [], [GET "k"])
  /\
  run script.env (redis.Add hourly 4) (script.mkWorld [] [script.ok RNil; script.timeout])
    = (Done (redis.set_remaining hourly 10,
             (redis.State (redis.set_remaining hourly 10),
              Some (ConnError "i/o timeout"))),
       script.mkWorld [] [], [GET "k"; INCRBY "k" 4]).
Proof.
  split.
  - apply (proj1 (Add_reports_connection_errors script.env hourly 4
                    (script.mkWorld [] [script.timeout]) (script.mkWorld [] [])
                    (script.mkWorld [] []) RNil (ConnError "i/o timeout") RNil 10)).
    reflexivity.
  - apply (proj2 (Add_reports_connection_errors script.env hourly 4
                    (script.mkWorld [] [script.ok RNil; script.timeout]) (script.mkWorld [] [script.timeout])
                    (script.mkWorld [] []) RNil (ConnError "i/o timeout") RNil 10)).
    + reflexivity.
    + reflexivity.
    + vm_compute. discriminate.
    + reflexivity.
Defined.


Lemma successful_Add_projects_the_counter_witness :
  exists (count : Reply) (quota c : Z) (w1 w2 : server.World),
    env_do server.env (GET "k") (holding ["7"%byte]) = ((count, None), w1) /\
    redis.remaining_read 10 count = Some quota /\
    2 <= quota /\
    env_do server.env (INCRBY "k" 2) w1 = ((RInt c, None), w2) /\
    Remaining (mkBucketState 10 1 Hour) = uint_sub 10 (redis.min (uint c) 10) /\
    (is_uint 10 -> 0 <= c < 2 ^ 63 ->
     Remaining (mkBucketState 10 1 Hour) = Z.max 0 (10 - c)).
Proof.
  apply (successful_Add_projects_the_counter server.env hourly
           (redis.mkBucket "k" 10 1 Hour Hour) 2 (mkBucketState 10 1 Hour)
           (holding ["7"%byte])
           (snd (fst (run server.env (redis.Add hourly 2) (holding ["7"%byte]))))
           [GET "k"; INCRBY "k" 2]).
  vm_compute. reflexivity.
Defined.

Lemma Add_drops_the_error_of_PTTL_witness :
  exists b' err log,
    run script.env (redis.Add hourly 4)
      (script.mkWorld [2 * Hour] [script.ok RNil; script.ok (RInt 9); script.timeout])
      = (Done (b', (redis.State b', err)), script.mkWorld [] [], log) /\
    redis.reset b' = redis.reset hourly /\
    (err = None \/ err = Some ErrorFull) /\
    (err = None <-> 4 <= 10) /\
    In (PTTL "k") log.
Proof.
  apply (Add_drops_the_error_of_PTTL script.env hourly 4
           (script.mkWorld [2 * Hour] [script.ok RNil; script.ok (RInt 9); script.timeout])
           (script.mkWorld [2 * Hour] [script.ok (RInt 9); script.timeout])
           (script.mkWorld [2 * Hour] [script.timeout])
           (script.mkWorld [] [script.timeout])
           (script.mkWorld [] [])
           RNil RNil 10 9 (2 * Hour) (ConnError "i/o timeout")).
  - reflexivity.
  - reflexivity.
  - right. split; [vm_compute; discriminate |]. split; [vm_compute; discriminate |].
    reflexivity.
  - reflexivity.
  - vm_compute. discriminate.
  - reflexivity.
Defined.

Lemma spent_counter_refuses_every_amount_witness :
  exists out w' log,
    run server.env (redis.Add hourly 1) (holding ["1"; "2"]%byte) = (out, w', log) /\
    (log = [GET "k"] \/ log = [GET "k"; PTTL "k"]) /\
    forall b' st err, out = Done (b', (st, err)) ->
      err = Some ErrorFull /\ Remaining st = 0 /\ redis.remaining b' = 0.
Proof.
  apply (spent_counter_refuses_every_amount server.env hourly 1
           (holding ["1"; "2"]%byte) (holding ["1"; "2"]%byte) ["1"; "2"]%byte 12).
  - reflexivity.
  - vm_compute. reflexivity.
  - vm_compute. split; [discriminate | reflexivity].
  - left. vm_compute. discriminate.
  - lia.
Defined.

Lemma Create_returns_a_bucket_or_an_error_witness :
  (Some (redis.mkBucket "k" 10 6 (-1 * Millisecond) Hour) = None
   <-> @None error <> None) /\
  (forall b, Some (redis.mkBucket "k" 10 6 (-1 * Millisecond) Hour) = Some b ->
     In (PTTL "k") [GET "k"; PTTL "k"] ->
     exists (ttl now : Z) (w1 w2 : server.World),
       env_do server.env (PTTL "k") w1 = ((RInt ttl, None), w2) /\
       env_now server.env w2 = (now, holding ["4"%byte]) /\
       redis.reset b = Time_Add now (int64_mul ttl redis.millisecond) /\
       (- 2 ^ 43 <= ttl < 0 -> redis.reset b < now)).
Proof.
  apply (Create_returns_a_bucket_or_an_error server.env redis.mkStorage "k" 10 Hour
           (holding ["4"%byte]) (holding ["4"%byte])
           (Some (redis.mkBucket "k" 10 6 (-1 * Millisecond) Hour)) None
           [GET "k"; PTTL "k"]).
  vm_compute. reflexivity.
Defined.

End RedisExamples.
